(** * The ticket ledger of [hehehe.py]

    A shallow embedding of the classes [TicketTransaction], [Block] and
    [TicketBlockchain] (the second, final definitions of the script, the
    ones bound when its application part runs), and the properties of the
    ledger engine proved over it.

    Modelling choices.
    - Python lists that are shared between two holders are kept in a store
      of list objects ([lists]): [Block(len(chain), self.pending_transactions,
      ...)] hands the pending list itself to the new block, and
      [self.pending_transactions = []] then rebinds the attribute to a new
      object. A block and the ledger hold references ([loc]) into that
      store.
    - [self.chain] and [self.tickets] are never aliased, nor are the ticket
      dictionaries inside the class (each is reachable from one key only),
      so they are kept by value; [ticket["owner"] = ...] becomes an update
      of the entry under its key. Transactions are never changed once
      built, and events are passed around untouched: both are values.
    - [time.time()] and [uuid.uuid4()] are inputs of the environment: every
      operation takes the values they return as arguments.
    - [json.dumps(..., sort_keys=True)] and [hashlib.sha256(...).hexdigest()]
      are library functions: the ledger and its theorems are parametric in
      them (total functions: the events are values that [json] serialises).
    - The [while] loop of [proof_of_work] has no bound; it is modelled with
      fuel, [None] meaning that the fuel ran out (or that a step on which
      Python would raise was met, such as [self.chain[-1]] on an empty
      chain).

    Organisation: the ledger (the classes of the second script of the
    file); the calls that its page makes on the ledger; the classes and the
    booking of the first script ([V1]); SHA-256 and the JSON text of a
    block, with which the ledgers run on concrete inputs ([Demo]); the
    proofs. *)

From stdpp Require Import gmap strings list fin_maps pretty.
From Stdlib Require Import ZArith NArith Ascii.

(** References to Python list objects in the store. *)
Definition loc := nat.

(** ["0" * n]: string repetition; empty for [n <= 0]. *)
Fixpoint str_repeat (s : string) (n : nat) : string :=
  match n with
  | O => EmptyString
  | S n' => String.append s (str_repeat s n')
  end.

Definition str_mul (s : string) (n : Z) : string := str_repeat s (Z.to_nat n).

(** [s.startswith(p)] *)
Definition startswith (s p : string) : bool := String.prefix p s.

Section TicketLedger.

(** The type of the values of [time.time()] (a Python float: it is stored,
    serialised and hashed, never computed with), and the type of the
    [event] argument the caller passes to [issue_ticket]. *)
Context {pyfloat : Type} {Event : Type}.

(** ** class TicketTransaction *)
Record TicketTransaction := mkTicketTransaction {
  tx_type : string;
  ticket_id : string;
  tx_owner : string;
  tx_event : option Event;          (* event=None *)
  new_owner : option string;        (* new_owner=None *)
  tx_timestamp : pyfloat
}.

(** [to_dict] returns [self.__dict__]: the fields themselves. *)
Definition to_dict (tx : TicketTransaction) : TicketTransaction := tx.

(** ** class Block

    [hash] is not set by [__init__]; it is an attribute assigned later
    ([block.hash = ...]), so it is absent ([None]) on a block that has
    not been sealed. [transactions] is a reference to a list object. *)
Record Block := mkBlock {
  index : Z;
  transactions : loc;
  timestamp : pyfloat;
  previous_hash : string;
  nonce : Z;
  hash : option string
}.

(** [Block.__init__(index, transactions, previous_hash, nonce=0)], with the
    value of [time.time()]. *)
Definition Block_init (now : pyfloat) (index : Z) (transactions : loc)
    (previous_hash : string) (nonce : Z) : Block :=
  mkBlock index transactions now previous_hash nonce None.

(** [block.nonce = n] and [block.hash = h]. *)
Definition set_nonce (block : Block) (n : Z) : Block :=
  mkBlock (index block) (transactions block) (timestamp block)
          (previous_hash block) n (hash block).

Definition set_hash (block : Block) (h : string) : Block :=
  mkBlock (index block) (transactions block) (timestamp block)
          (previous_hash block) (nonce block) (Some h).

(** The dictionary that [compute_hash] serialises. *)
Record BlockDict := mkBlockDict {
  d_index : Z;
  d_transactions : list TicketTransaction;
  d_timestamp : pyfloat;
  d_previous_hash : string;
  d_nonce : Z
}.

(** [json.dumps(d, sort_keys=True)] and
    [hashlib.sha256(s.encode()).hexdigest()]. *)
Variable json_dumps : BlockDict → string.
Variable sha256_hexdigest : string → string.

Definition compute_hash (lists : list (list TicketTransaction)) (self : Block)
    : option string :=
  txs ← lists !! transactions self;
  let block_string :=
    json_dumps {| d_index := index self;
                  d_transactions := to_dict <$> txs;
                  d_timestamp := timestamp self;
                  d_previous_hash := previous_hash self;
                  d_nonce := nonce self |} in
  Some (sha256_hexdigest block_string).

(** ** The ticket dictionaries [{"owner": .., "status": .., "event": ..}].
    Such a dictionary has three keys, so it is never falsy. *)
Record Ticket := mkTicket {
  owner : string;
  status : string;
  event : Event
}.

(** ** class TicketBlockchain

    [lists] is the store of list objects, [submitted] is ghost state: the
    arguments of all calls of [add_transaction] so far, in order. No
    operation reads it. *)
Record TicketBlockchain := mkTicketBlockchain {
  lists : list (list TicketTransaction);
  chain : list Block;
  pending_transactions : loc;
  tickets : gmap string Ticket;
  submitted : list TicketTransaction
}.

Definition difficulty : Z := 2.

(** The list object behind [self.pending_transactions]. *)
Definition pending (self : TicketBlockchain) : option (list TicketTransaction) :=
  lists self !! pending_transactions self.

(** The list object behind [block.transactions]. *)
Definition block_transactions (self : TicketBlockchain) (b : Block)
    : option (list TicketTransaction) :=
  lists self !! transactions b.


(** [create_genesis_block]; the literal [[]] allocates a new list object. *)
Definition create_genesis_block (now : pyfloat) (self : TicketBlockchain)
    : option TicketBlockchain :=
  let lists' := lists self ++ [[]] in
  let genesis_block := Block_init now 0 (length (lists self)) "0" 0 in
  h ← compute_hash lists' genesis_block;
  let genesis_block := set_hash genesis_block h in
  Some (mkTicketBlockchain lists' (chain self ++ [genesis_block])
          (pending_transactions self) (tickets self) (submitted self)).

(** [TicketBlockchain()], that is [__init__]: the pending list is the first
    list object allocated, the list of the genesis block the second. *)
Definition new_blockchain (now : pyfloat) : option TicketBlockchain :=
  create_genesis_block now (mkTicketBlockchain [[]] [] 0%nat ∅ []).

(** [self.pending_transactions.append(transaction)]: the list object is
    updated in place. *)
Definition add_transaction (transaction : TicketTransaction)
    (self : TicketBlockchain) : option TicketBlockchain :=
  pend ← pending self;
  Some (mkTicketBlockchain
          (<[pending_transactions self := pend ++ [transaction]]> (lists self))
          (chain self) (pending_transactions self) (tickets self)
          (submitted self ++ [transaction])).

(** The [while] loop of [proof_of_work], entered with the digest of the
    current nonce; each unit of fuel pays for one iteration. *)
Fixpoint proof_of_work_loop (fuel : nat) (lists : list (list TicketTransaction))
    (block : Block) (computed_hash : string) : option (Block * string) :=
  if startswith computed_hash (str_mul "0" difficulty) then
    Some (block, computed_hash)
  else
    match fuel with
    | O => None
    | S fuel' =>
        let block := set_nonce block (nonce block + 1) in
        computed_hash ← compute_hash lists block;
        proof_of_work_loop fuel' lists block computed_hash
    end.

(** [proof_of_work] mutates [block.nonce] and returns the digest; the model
    returns the mutated block with it. *)
Definition proof_of_work (fuel : nat) (lists : list (list TicketTransaction))
    (block : Block) : option (Block * string) :=
  let block := set_nonce block 0 in
  computed_hash ← compute_hash lists block;
  proof_of_work_loop fuel lists block computed_hash.

(** [Block(len(self.chain), self.pending_transactions,
    self.chain[-1].compute_hash())]: the block that [mine] builds before the
    search. It holds the pending list object itself. *)
Definition new_block_of (now : pyfloat) (self : TicketBlockchain) : option Block :=
  last_block ← last (chain self);
  prev ← compute_hash (lists self) last_block;
  Some (Block_init now (Z.of_nat (length (chain self)))
          (pending_transactions self) prev 0).

Definition mine (fuel : nat) (now : pyfloat) (self : TicketBlockchain)
    : option (TicketBlockchain * option Block) :=
  pend ← pending self;
  match pend with
  | [] => Some (self, None)
  | _ :: _ =>
      new_block ← new_block_of now self;
      '(new_block, h) ← proof_of_work fuel (lists self) new_block;
      let new_block := set_hash new_block h in
      Some (mkTicketBlockchain
              (lists self ++ [[]])
              (chain self ++ [new_block])
              (length (lists self))
              (tickets self) (submitted self),
            Some new_block)
  end.

Definition issue_ticket (uuid4 : string) (now : pyfloat)
    (owner : string) (event : Event) (self : TicketBlockchain)
    : option (TicketBlockchain * string) :=
  let ticket_id := uuid4 in
  let tx := mkTicketTransaction "issue" ticket_id owner (Some event) None now in
  self ← add_transaction tx self;
  Some (mkTicketBlockchain (lists self) (chain self) (pending_transactions self)
          (<[ticket_id := mkTicket owner "valid" event]> (tickets self))
          (submitted self),
        ticket_id).

Definition transfer_ticket (now : pyfloat) (ticket_id new_owner : string)
    (self : TicketBlockchain) : option (TicketBlockchain * bool) :=
  match tickets self !! ticket_id with
  | None => Some (self, false)
  | Some ticket =>
      if negb (String.eqb (status ticket) "valid") then Some (self, false)
      else
        let tx := mkTicketTransaction "transfer" ticket_id (owner ticket)
                    None (Some new_owner) now in
        self ← add_transaction tx self;
        Some (mkTicketBlockchain (lists self) (chain self)
                (pending_transactions self)
                (<[ticket_id := mkTicket new_owner (status ticket) (event ticket)]>
                   (tickets self))
                (submitted self),
              true)
  end.

Definition redeem_ticket (now : pyfloat) (ticket_id : string)
    (self : TicketBlockchain) : option (TicketBlockchain * bool) :=
  match tickets self !! ticket_id with
  | None => Some (self, false)
  | Some ticket =>
      if negb (String.eqb (status ticket) "valid") then Some (self, false)
      else
        let tx := mkTicketTransaction "redeem" ticket_id (owner ticket)
                    None None now in
        self ← add_transaction tx self;
        Some (mkTicketBlockchain (lists self) (chain self)
                (pending_transactions self)
                (<[ticket_id := mkTicket (owner ticket) "redeemed" (event ticket)]>
                   (tickets self))
                (submitted self),
              true)
  end.

Definition verify_ticket (ticket_id : string) (self : TicketBlockchain)
    : TicketBlockchain * option Ticket :=
  match tickets self !! ticket_id with
  | None => (self, None)
  | Some ticket => (self, Some ticket)
  end.

(** ** Runs of the ledger

    A call of the interface together with what the environment supplies to
    it: the identifier drawn by [uuid.uuid4()], the clock values, and the
    number of iterations granted to the search of [mine]. *)
Inductive call :=
  | call_issue_ticket (uuid4 : string) (now : pyfloat) (owner : string) (event : Event)
  | call_transfer_ticket (now : pyfloat) (ticket_id new_owner : string)
  | call_redeem_ticket (now : pyfloat) (ticket_id : string)
  | call_verify_ticket (ticket_id : string)
  | call_mine (fuel : nat) (now : pyfloat).

Inductive retval :=
  | ret_ticket_id (ticket_id : string)
  | ret_bool (b : bool)
  | ret_ticket (t : option Ticket)
  | ret_block (b : option Block).

Definition exec (c : call) (self : TicketBlockchain)
    : option (TicketBlockchain * retval) :=
  match c with
  | call_issue_ticket uuid4 now owner event =>
      '(s, r) ← issue_ticket uuid4 now owner event self; Some (s, ret_ticket_id r)
  | call_transfer_ticket now ticket_id new_owner =>
      '(s, r) ← transfer_ticket now ticket_id new_owner self; Some (s, ret_bool r)
  | call_redeem_ticket now ticket_id =>
      '(s, r) ← redeem_ticket now ticket_id self; Some (s, ret_bool r)
  | call_verify_ticket ticket_id =>
      let '(s, r) := verify_ticket ticket_id self in Some (s, ret_ticket r)
  | call_mine fuel now =>
      '(s, r) ← mine fuel now self; Some (s, ret_block r)
  end.

Fixpoint run (cs : list call) (self : TicketBlockchain) : option TicketBlockchain :=
  match cs with
  | [] => Some self
  | c :: cs' => '(s, _) ← exec c self; run cs' s
  end.

(** The states of a ledger created by [TicketBlockchain()] and driven through
    its interface. *)
Definition reachable (self : TicketBlockchain) : Prop :=
  ∃ now cs s0, new_blockchain now = Some s0 ∧ run cs s0 = Some self.

(** [uuid.uuid4()] never draws an identifier that is already a key of the
    registry, along a run. *)
Fixpoint uuid4_fresh (cs : list call) (self : TicketBlockchain) : Prop :=
  match cs with
  | [] => True
  | c :: cs' =>
      match c with
      | call_issue_ticket uuid4 _ _ _ => tickets self !! uuid4 = None
      | _ => True
      end ∧
      match exec c self with
      | Some (s, _) => uuid4_fresh cs' s
      | None => True
      end
  end.

(** ** What the proofs speak about *)

(** The transaction lists of the blocks of the chain, in chain order. *)
Definition sealed_transactions (self : TicketBlockchain)
    : option (list (list TicketTransaction)) :=
  mapM (block_transactions self) (chain self).

(** The nonce [n] seals [block]: its digest passes the test of the loop. *)
Definition seals (lists : list (list TicketTransaction)) (block : Block) (n : Z)
    : bool :=
  match compute_hash lists (set_nonce block n) with
  | Some h => startswith h (str_mul "0" difficulty)
  | None => false
  end.

(** [s'] has the chain of [s]: the same blocks, each with the same list of
    transactions behind its reference. *)
Definition same_chain (s s' : TicketBlockchain) : Prop :=
  chain s' = chain s ∧
  ∀ b, b ∈ chain s → block_transactions s' b = block_transactions s b.

(** The invariant of the ledger. *)
Record wf (self : TicketBlockchain) : Prop := mk_wf {
  (* the pending list and the lists of the blocks are distinct objects *)
  wf_locs : NoDup (pending_transactions self :: (transactions <$> chain self));
  wf_pending : is_Some (pending self);
  wf_hash : ∀ i b, chain self !! i = Some b →
    ∃ h, hash b = Some h ∧ compute_hash (lists self) b = Some h ∧
         index b = Z.of_nat i ∧
         (0 < i → startswith h "00" = true);
  wf_link : ∀ i b p, chain self !! S i = Some b → chain self !! i = Some p →
    hash p = Some (previous_hash b);
  wf_genesis : ∃ g, chain self !! 0 = Some g ∧ index g = 0%Z ∧
    block_transactions self g = Some [] ∧ previous_hash g = "0" ∧ nonce g = 0%Z;
  wf_log : ∃ sealed pend, sealed_transactions self = Some sealed ∧
    pending self = Some pend ∧ submitted self = concat sealed ++ pend
}.

(** ** The registry as a projection of the log

    What each kind of transaction records of the registry update made with
    it: an issue the new entry, a transfer the new owner, a redemption the
    change of status. *)
Definition apply_transaction (registry : gmap string Ticket)
    (tx : TicketTransaction) : gmap string Ticket :=
  if String.eqb (tx_type tx) "issue" then
    match tx_event tx with
    | Some e => <[ticket_id tx := mkTicket (tx_owner tx) "valid" e]> registry
    | None => registry
    end
  else if String.eqb (tx_type tx) "transfer" then
    match registry !! ticket_id tx, new_owner tx with
    | Some t, Some n => <[ticket_id tx := mkTicket n (status t) (event t)]> registry
    | _, _ => registry
    end
  else if String.eqb (tx_type tx) "redeem" then
    match registry !! ticket_id tx with
    | Some t => <[ticket_id tx := mkTicket (owner t) "redeemed" (event t)]> registry
    | None => registry
    end
  else registry.

Definition replay (log : list TicketTransaction) : gmap string Ticket :=
  foldl apply_transaction ∅ log.

(** The number of redemptions of a ticket in a log. *)
Definition is_redeem_of (id : string) (tx : TicketTransaction) : bool :=
  String.eqb (tx_type tx) "redeem" && String.eqb (ticket_id tx) id.

Fixpoint redemptions (id : string) (log : list TicketTransaction) : nat :=
  match log with
  | [] => 0
  | tx :: log' => (if is_redeem_of id tx then 1 else 0) + redemptions id log'
  end.

(** The three shapes of transaction that the class builds. *)
Definition well_shaped (tx : TicketTransaction) : Prop :=
  (tx_type tx = "issue" ∧ is_Some (tx_event tx) ∧ new_owner tx = None) ∨
  (tx_type tx = "transfer" ∧ tx_event tx = None ∧ is_Some (new_owner tx)) ∨
  (tx_type tx = "redeem" ∧ tx_event tx = None ∧ new_owner tx = None).

(** Every block after the genesis block holds at least one transaction. *)
Definition blocks_nonempty (s : TicketBlockchain) : Prop :=
  ∀ (i : nat) b, chain s !! S i = Some b →
    ∃ tx txs, block_transactions s b = Some (tx :: txs).

(** The redemptions of a ticket in the log, read off the registry. *)
Definition redemptions_agree (s : TicketBlockchain) : Prop :=
  ∀ id, redemptions id (submitted s) =
        match tickets s !! id with
        | Some t => if String.eqb (status t) "redeemed" then 1 else 0
        | None => 0
        end.

End TicketLedger.

Arguments TicketTransaction : clear implicits.
Arguments Block : clear implicits.
Arguments BlockDict : clear implicits.
Arguments Ticket : clear implicits.
Arguments TicketBlockchain : clear implicits.
Arguments call : clear implicits.
Arguments retval : clear implicits.

(** ** The application part of the script

    The calls that the page makes on its ledger; the widgets are left out,
    the texts of [st.text_input] are arguments and the kind of message shown
    is the result. Events are the strings the page passes. *)
Section Application.

Context {pyfloat : Type}.
Variable json_dumps : BlockDict pyfloat string → string.
Variable sha256_hexdigest : string → string.

(** The startup flow: the result of each call is dropped, but for the
    identifier of the ticket. *)
Definition demo_flow (fuel : nat) (uuid4 : string)
    (t_issue t_mine1 t_transfer t_mine2 t_redeem t_mine3 : pyfloat)
    (blockchain : TicketBlockchain pyfloat string)
    : option (TicketBlockchain pyfloat string) :=
  '(s, demo_ticket) ← issue_ticket uuid4 t_issue "Alice" "Rock Concert" blockchain;
  '(s, _) ← mine json_dumps sha256_hexdigest fuel t_mine1 s;
  '(s, _) ← transfer_ticket t_transfer demo_ticket "Bob" s;
  '(s, _) ← mine json_dumps sha256_hexdigest fuel t_mine2 s;
  '(s, _) ← redeem_ticket t_redeem demo_ticket s;
  '(s, _) ← mine json_dumps sha256_hexdigest fuel t_mine3 s;
  Some s.

(** [st.success], [st.warning], [st.error]. *)
Inductive feedback := st_success | st_warning | st_error.

(** A string is truthy when it is not empty. *)
Definition truthy (s : string) : bool :=
  match s with
  | EmptyString => false
  | String _ _ => true
  end.

(** The body of [if st.button("Issue Ticket"):]. *)
Definition issue_button (fuel : nat) (uuid4 : string) (t_issue t_mine : pyfloat)
    (owner event_name : string) (blockchain : TicketBlockchain pyfloat string)
    : option (TicketBlockchain pyfloat string * feedback) :=
  if truthy owner && truthy event_name then
    '(s, ticket_id) ← issue_ticket uuid4 t_issue owner event_name blockchain;
    '(s, _) ← mine json_dumps sha256_hexdigest fuel t_mine s;
    Some (s, st_success)
  else Some (blockchain, st_warning).

(** The body of [if st.button("Transfer Ticket"):]. *)
Definition transfer_button (fuel : nat) (t_transfer t_mine : pyfloat)
    (transfer_ticket_id new_owner : string)
    (blockchain : TicketBlockchain pyfloat string)
    : option (TicketBlockchain pyfloat string * feedback) :=
  match transfer_ticket t_transfer transfer_ticket_id new_owner blockchain with
  | Some (s, true) =>
      '(s, _) ← mine json_dumps sha256_hexdigest fuel t_mine s;
      Some (s, st_success)
  | Some (s, false) => Some (s, st_error)
  | None => None
  end.

(** The body of [if st.button("Redeem Ticket"):]. *)
Definition redeem_button (fuel : nat) (t_redeem t_mine : pyfloat)
    (redeem_ticket_id : string) (blockchain : TicketBlockchain pyfloat string)
    : option (TicketBlockchain pyfloat string * feedback) :=
  match redeem_ticket t_redeem redeem_ticket_id blockchain with
  | Some (s, true) =>
      '(s, _) ← mine json_dumps sha256_hexdigest fuel t_mine s;
      Some (s, st_success)
  | Some (s, false) => Some (s, st_error)
  | None => None
  end.

End Application.

(** ** The first script of the file

    Its classes differ from those of the second: a transaction has no
    [new_owner], there is no [transfer_ticket], [redeem_ticket] tests the
    positive condition and [verify_ticket] is the bare lookup. [Block] and
    the ticket dictionaries are the same. The store of list objects is kept
    as before; no log is kept. *)
Module V1.

Section TicketLedger.

Context {pyfloat : Type} {Event : Type}.

Record TicketTransaction := mkTicketTransaction {
  tx_type : string;
  ticket_id : string;
  tx_owner : string;
  tx_event : option Event;          (* event=None *)
  tx_timestamp : pyfloat
}.

Definition to_dict (tx : TicketTransaction) : TicketTransaction := tx.

Record BlockDict := mkBlockDict {
  d_index : Z;
  d_transactions : list TicketTransaction;
  d_timestamp : pyfloat;
  d_previous_hash : string;
  d_nonce : Z
}.

Variable json_dumps : BlockDict → string.
Variable sha256_hexdigest : string → string.

Definition compute_hash (lists : list (list TicketTransaction)) (self : Block pyfloat)
    : option string :=
  txs ← lists !! transactions self;
  let block_string :=
    json_dumps {| d_index := index self;
                  d_transactions := to_dict <$> txs;
                  d_timestamp := timestamp self;
                  d_previous_hash := previous_hash self;
                  d_nonce := nonce self |} in
  Some (sha256_hexdigest block_string).

Record TicketBlockchain := mkTicketBlockchain {
  lists : list (list TicketTransaction);
  chain : list (Block pyfloat);
  pending_transactions : loc;
  tickets : gmap string (Ticket Event)
}.

Definition pending (self : TicketBlockchain) : option (list TicketTransaction) :=
  lists self !! pending_transactions self.

Definition block_transactions (self : TicketBlockchain) (b : Block pyfloat)
    : option (list TicketTransaction) :=
  lists self !! transactions b.

Definition create_genesis_block (now : pyfloat) (self : TicketBlockchain)
    : option TicketBlockchain :=
  let lists' := lists self ++ [[]] in
  let genesis_block := Block_init now 0 (length (lists self)) "0" 0 in
  h ← compute_hash lists' genesis_block;
  let genesis_block := set_hash genesis_block h in
  Some (mkTicketBlockchain lists' (chain self ++ [genesis_block])
          (pending_transactions self) (tickets self)).

Definition new_blockchain (now : pyfloat) : option TicketBlockchain :=
  create_genesis_block now (mkTicketBlockchain [[]] [] 0%nat ∅).

Definition add_transaction (transaction : TicketTransaction)
    (self : TicketBlockchain) : option TicketBlockchain :=
  pend ← pending self;
  Some (mkTicketBlockchain
          (<[pending_transactions self := pend ++ [transaction]]> (lists self))
          (chain self) (pending_transactions self) (tickets self)).

Fixpoint proof_of_work_loop (fuel : nat) (lists : list (list TicketTransaction))
    (block : Block pyfloat) (computed_hash : string)
    : option (Block pyfloat * string) :=
  if startswith computed_hash (str_mul "0" difficulty) then
    Some (block, computed_hash)
  else
    match fuel with
    | O => None
    | S fuel' =>
        let block := set_nonce block (nonce block + 1) in
        computed_hash ← compute_hash lists block;
        proof_of_work_loop fuel' lists block computed_hash
    end.

Definition proof_of_work (fuel : nat) (lists : list (list TicketTransaction))
    (block : Block pyfloat) : option (Block pyfloat * string) :=
  let block := set_nonce block 0 in
  computed_hash ← compute_hash lists block;
  proof_of_work_loop fuel lists block computed_hash.

Definition mine (fuel : nat) (now : pyfloat) (self : TicketBlockchain)
    : option (TicketBlockchain * option (Block pyfloat)) :=
  pend ← pending self;
  match pend with
  | [] => Some (self, None)
  | _ :: _ =>
      last_block ← last (chain self);
      prev ← compute_hash (lists self) last_block;
      let new_block :=
        Block_init now (Z.of_nat (length (chain self)))
                   (pending_transactions self) prev 0 in
      '(new_block, h) ← proof_of_work fuel (lists self) new_block;
      let new_block := set_hash new_block h in
      Some (mkTicketBlockchain
              (lists self ++ [[]])
              (chain self ++ [new_block])
              (length (lists self))
              (tickets self),
            Some new_block)
  end.

Definition issue_ticket (uuid4 : string) (now : pyfloat)
    (owner : string) (event : Event) (self : TicketBlockchain)
    : option (TicketBlockchain * string) :=
  let ticket_id := uuid4 in
  let tx := mkTicketTransaction "issue" ticket_id owner (Some event) now in
  self ← add_transaction tx self;
  Some (mkTicketBlockchain (lists self) (chain self) (pending_transactions self)
          (<[ticket_id := mkTicket owner "valid" event]> (tickets self)),
        ticket_id).

(** [if ticket and ticket["status"] == "valid": ...; return True] and
    [return False] otherwise. *)
Definition redeem_ticket (now : pyfloat) (ticket_id : string)
    (self : TicketBlockchain) : option (TicketBlockchain * bool) :=
  match tickets self !! ticket_id with
  | Some ticket =>
      if String.eqb (status ticket) "valid" then
        let tx := mkTicketTransaction "redeem" ticket_id (owner ticket) None now in
        self ← add_transaction tx self;
        Some (mkTicketBlockchain (lists self) (chain self)
                (pending_transactions self)
                (<[ticket_id := mkTicket (owner ticket) "redeemed" (event ticket)]>
                   (tickets self)),
              true)
      else Some (self, false)
  | None => Some (self, false)
  end.

(** [return self.tickets.get(ticket_id, None)] *)
Definition verify_ticket (ticket_id : string) (self : TicketBlockchain)
    : TicketBlockchain * option (Ticket Event) :=
  (self, tickets self !! ticket_id).

(** The loop of the "Book Tickets" button: the [i]-th round draws the
    identifier [uuid4 i] at the clock value [clock i]. *)
Fixpoint issue_tickets (uuid4 : nat → string) (clock : nat → pyfloat)
    (rounds : nat) (i : nat) (user_name : string) (selected_event : Event)
    (booked_ids : list string) (blockchain : TicketBlockchain)
    : option (TicketBlockchain * list string) :=
  match rounds with
  | O => Some (blockchain, booked_ids)
  | S rounds' =>
      '(s, ticket_id) ← issue_ticket (uuid4 i) (clock i) user_name selected_event
                          blockchain;
      issue_tickets uuid4 clock rounds' (S i) user_name selected_event
        (booked_ids ++ [ticket_id]) s
  end.

(** The body of [if st.button("Book Tickets"):], up to the messages: the
    result is the ledger and [st.session_state.tickets_booked]. *)
Definition book_tickets (fuel : nat) (uuid4 : nat → string) (clock : nat → pyfloat)
    (t_mine : pyfloat) (num_tickets : nat) (user_name : string)
    (selected_event : Event) (blockchain : TicketBlockchain)
    : option (TicketBlockchain * list string) :=
  '(s, booked_ids) ← issue_tickets uuid4 clock num_tickets 0 user_name
                       selected_event [] blockchain;
  '(s, _) ← mine fuel t_mine s;
  Some (s, booked_ids).

End TicketLedger.

Arguments TicketTransaction : clear implicits.
Arguments BlockDict : clear implicits.
Arguments TicketBlockchain : clear implicits.

End V1.

(** ** SHA-256 (FIPS 180-4), as [hashlib.sha256] computes it *)
Module SHA256.
Local Open Scope N_scope.

Definition w32 (x : N) : N := N.land x 0xffffffff.
Definition add32 (x y : N) : N := w32 (x + y).
Definition rotr (n x : N) : N := N.lor (N.shiftr x n) (w32 (N.shiftl x (32 - n))).
Definition not32 (x : N) : N := N.lxor x 0xffffffff.

Definition Ch (x y z : N) : N := N.lxor (N.land x y) (N.land (not32 x) z).
Definition Maj (x y z : N) : N :=
  N.lxor (N.lxor (N.land x y) (N.land x z)) (N.land y z).
Definition Sigma0 (x : N) : N := N.lxor (N.lxor (rotr 2 x) (rotr 13 x)) (rotr 22 x).
Definition Sigma1 (x : N) : N := N.lxor (N.lxor (rotr 6 x) (rotr 11 x)) (rotr 25 x).
Definition sigma0 (x : N) : N := N.lxor (N.lxor (rotr 7 x) (rotr 18 x)) (N.shiftr x 3).
Definition sigma1 (x : N) : N := N.lxor (N.lxor (rotr 17 x) (rotr 19 x)) (N.shiftr x 10).

(** The round constants and the initial hash value are not tabulated: they
    are the first 32 bits of the fractional parts of the cube roots of the
    first 64 primes, and of the square roots of the first 8. *)
Definition is_prime (n : N) : bool :=
  (1 <? n) && forallb (λ d, negb (n mod N.of_nat d =? 0)) (seq 2 (N.to_nat (N.sqrt n) - 1)).

Definition primes (count : nat) : list N :=
  take count (filter (λ n, is_prime n = true) (N.of_nat <$> seq 2 310)).

(** The integer cube root, one bit at a time from the top. *)
Definition icbrt (n : N) : N :=
  foldl (λ r i, let r' := r + N.shiftl 1 (N.of_nat i) in
                if r' * r' * r' <=? n then r' else r)
        0 (rev (seq 0 36)).

Definition K : list N :=
  Eval vm_compute in (λ p, w32 (icbrt (N.shiftl p 96))) <$> primes 64.

Definition H0 : list N :=
  Eval vm_compute in (λ p, w32 (N.sqrt (N.shiftl p 64))) <$> primes 8.

(** One round: the working variables, and the window of the sixteen most
    recent words of the message schedule. *)
Definition round (k : N) (st : list N * list N) : list N * list N :=
  match st with
  | ([a; b; c; d; e; f; g; h], (w0 :: _) as w) =>
      let t1 := add32 (add32 (add32 (add32 h (Sigma1 e)) (Ch e f g)) k) w0 in
      let t2 := add32 (Sigma0 a) (Maj a b c) in
      let w16 := add32 (add32 (add32 (sigma1 (nth 14 w 0)) (nth 9 w 0))
                          (sigma0 (nth 1 w 0))) w0 in
      ([add32 t1 t2; a; b; c; add32 d t1; e; f; g], tail w ++ [w16])
  | _ => st
  end.

Definition compress (hs : list N) (block : list N) : list N :=
  let '(v, _) := foldl (λ st k, round k st) (hs, block) K in
  zip_with add32 hs v.

Definition be_word (bs : list N) : N :=
  match bs with
  | [b0; b1; b2; b3] => N.lor (N.shiftl b0 24) (N.lor (N.shiftl b1 16) (N.lor (N.shiftl b2 8) b3))
  | _ => 0
  end.

Fixpoint chunks {A} (fuel n : nat) (l : list A) : list (list A) :=
  match fuel, l with
  | _, [] => []
  | O, _ => []
  | S fuel', _ => take n l :: chunks fuel' n (drop n l)
  end.

Definition be_bytes (width : nat) (x : N) : list N :=
  (λ i, N.land (N.shiftr x (8 * N.of_nat i)) 0xff) <$> rev (seq 0 width).

Definition pad (msg : list N) : list N :=
  let len := length msg in
  let zeros := ((64 - (len + 9) mod 64) mod 64)%nat in
  msg ++ [0x80] ++ replicate zeros 0 ++ be_bytes 8 (8 * N.of_nat len).

Definition digest (msg : list N) : list N :=
  let bytes := pad msg in
  let words := be_word <$> chunks (length bytes) 4 bytes in
  foldl compress H0 (chunks (length words) 16 words).

Definition hex_digit (n : N) : ascii :=
  match n with
  | 0 => "0" | 1 => "1" | 2 => "2" | 3 => "3" | 4 => "4" | 5 => "5" | 6 => "6" | 7 => "7"
  | 8 => "8" | 9 => "9" | 10 => "a" | 11 => "b" | 12 => "c" | 13 => "d" | 14 => "e" | _ => "f"
  end%char.

Definition hex_word (digits : nat) (x : N) : string :=
  String.string_of_list_ascii
    ((λ i, hex_digit (N.land (N.shiftr x (4 * N.of_nat i)) 0xf)) <$> rev (seq 0 digits)).

Definition bytes_of_string (s : string) : list N := N_of_ascii <$> String.list_ascii_of_string s.

Definition hexdigest (s : string) : string :=
  foldr (λ w acc, String.append (hex_word 8 w) acc) EmptyString (digest (bytes_of_string s)).

End SHA256.

Module Json.

Definition dquote : string := String "034"%char EmptyString.
Definition backslash : string := String "092"%char EmptyString.

(** The escapes of [json.dumps] with [ensure_ascii=True]; a string is read
    as a sequence of code points below 256. *)
Definition escape_char (c : ascii) : string :=
  let n := N_of_ascii c in
  match n with
  | 34 => backslash +:+ dquote
  | 92 => backslash +:+ backslash
  | 8 => backslash +:+ "b"
  | 12 => backslash +:+ "f"
  | 10 => backslash +:+ "n"
  | 13 => backslash +:+ "r"
  | 9 => backslash +:+ "t"
  | _ => if (32 <=? n)%N && (n <=? 126)%N then String c EmptyString
         else backslash +:+ "u" +:+ SHA256.hex_word 4 n
  end%N.

Fixpoint escape (s : string) : string :=
  match s with
  | EmptyString => EmptyString
  | String c s' => escape_char c +:+ escape s'
  end.

Definition str (s : string) : string := dquote +:+ escape s +:+ dquote.

Definition opt_str (o : option string) : string :=
  match o with
  | Some s => str s
  | None => "null"
  end.

Fixpoint join (sep : string) (l : list string) : string :=
  match l with
  | [] => EmptyString
  | [x] => x
  | x :: l' => x +:+ sep +:+ join sep l'
  end.

(** An object, from its members in the order of their keys. *)
Definition object (members : list (string * string)) : string :=
  "{" +:+ join ", " ((λ kv, str kv.1 +:+ ": " +:+ kv.2) <$> members) +:+ "}".

Definition array (items : list string) : string :=
  "[" +:+ join ", " items +:+ "]".

(** A clock value is given by the text that Python prints for it, the
    event by its name. *)
Definition transaction (tx : TicketTransaction string string) : string :=
  object [("event", opt_str (tx_event tx));
          ("new_owner", opt_str (new_owner tx));
          ("owner", str (tx_owner tx));
          ("ticket_id", str (ticket_id tx));
          ("timestamp", tx_timestamp tx);
          ("tx_type", str (tx_type tx))].

Definition dumps (d : BlockDict string string) : string :=
  object [("index", pretty (d_index d));
          ("nonce", pretty (d_nonce d));
          ("previous_hash", str (d_previous_hash d));
          ("timestamp", d_timestamp d);
          ("transactions", array (transaction <$> d_transactions d))].

(** The transactions and blocks of the first script: no [new_owner]. *)
Definition transaction1 (tx : V1.TicketTransaction string string) : string :=
  object [("event", opt_str (V1.tx_event tx));
          ("owner", str (V1.tx_owner tx));
          ("ticket_id", str (V1.ticket_id tx));
          ("timestamp", V1.tx_timestamp tx);
          ("tx_type", str (V1.tx_type tx))].

Definition dumps1 (d : V1.BlockDict string string) : string :=
  object [("index", pretty (V1.d_index d));
          ("nonce", pretty (V1.d_nonce d));
          ("previous_hash", str (V1.d_previous_hash d));
          ("timestamp", V1.d_timestamp d);
          ("transactions", array (transaction1 <$> V1.d_transactions d))].

End Json.


(** ** A run of the ledger with the library functions themselves

    The startup flow of the script: a ticket is issued to Alice, transferred
    to Bob and redeemed, with a call of [mine] after each step. The clock
    values are chosen so that each search ends within three iterations. *)
Module Demo.

Definition ledger : Type := TicketBlockchain string string.

Definition new_blockchain := new_blockchain Json.dumps SHA256.hexdigest.
Definition run := run Json.dumps SHA256.hexdigest.

Definition uuid : string := "123e4567-e89b-42d3-a456-426614174000".
Definition uuid' : string := "9b2f6c1e-5d3a-4f7b-8c21-0a1b2c3d4e5f".

Definition boot : string := "1700000000.5".

Definition issue : call string string :=
  call_issue_ticket uuid "1700000001.5" "Alice" "Rock Concert".
Definition mine1 : call string string := call_mine 3 "1700001079.25".
Definition transfer : call string string :=
  call_transfer_ticket "1700002000.5" uuid "Bob".
Definition mine2 : call string string := call_mine 3 "1700003020.25".
Definition redeem : call string string :=
  call_redeem_ticket "1700004000.5" uuid.
Definition mine3 : call string string := call_mine 3 "1700005148.25".

(** What follows the redemption, for the claim that it is terminal. *)
Definition afterwards : list (call string string) :=
  [mine3;
   call_transfer_ticket "1700006000.5" uuid "Carol";
   call_issue_ticket uuid' "1700007000.5" "Dave" "Jazz Night";
   call_redeem_ticket "1700008000.5" uuid].

Definition nowhere : ledger := mkTicketBlockchain [] [] 0%nat ∅ [].

Definition after (cs : list (call string string)) : option ledger :=
  s0 ← new_blockchain boot; run cs s0.

Definition fresh : ledger :=
  Eval vm_compute in default nowhere (after []).
Definition issued : ledger :=
  Eval vm_compute in default nowhere (after [issue]).
Definition before_redeem : ledger :=
  Eval vm_compute in default nowhere (after [issue; mine1; transfer; mine2]).
Definition redeemed : ledger :=
  Eval vm_compute in default nowhere (after [issue; mine1; transfer; mine2; redeem]).
Definition final : ledger :=
  Eval vm_compute in
    default nowhere (after [issue; mine1; transfer; mine2; redeem; mine3]).
Definition later : ledger :=
  Eval vm_compute in
    default nowhere (after ([issue; mine1; transfer; mine2; redeem] ++ afterwards)).

Definition sealed1 : ledger :=
  Eval vm_compute in default nowhere (after [issue; mine1]).

(** The block that [mine] builds in [issued], before the search. *)
Definition candidate : Block string :=
  Eval vm_compute in
    default (Block_init "0" 0 0%nat "0" 0)
      (new_block_of Json.dumps SHA256.hexdigest "1700001079.25" issued).

(** A booking of two tickets on a new ledger of the first script. *)
Definition ledger1 : Type := V1.TicketBlockchain string string.

Definition draw (i : nat) : string :=
  match i with
  | O => uuid
  | S _ => uuid'
  end.

Definition tick (i : nat) : string := "17000000" +:+ pretty (10 + i)%nat +:+ ".5".

Definition nowhere1 : ledger1 := V1.mkTicketBlockchain [] [] 0%nat ∅.

Definition fresh1 : ledger1 :=
  Eval vm_compute in
    default nowhere1 (V1.new_blockchain Json.dumps1 SHA256.hexdigest boot).

Definition issued1 : ledger1 :=
  Eval vm_compute in
    default nowhere1
      (fst <$> V1.issue_ticket uuid "1700000001.5" "Alice" "Rock Concert" fresh1).

Definition booked1 : ledger1 :=
  Eval vm_compute in
    default nowhere1
      (fst <$> V1.book_tickets Json.dumps1 SHA256.hexdigest 3 draw tick
                 "1700001111.25" 2 "Alice" "Rock Concert" fresh1).

End Demo.

(** * Proofs *)

Section Proofs.
Context {pyfloat Event : Type}.
Variable json_dumps : BlockDict pyfloat Event → string.
Variable sha256_hexdigest : string → string.

Local Abbreviation compute_hash := (compute_hash json_dumps sha256_hexdigest).
Local Abbreviation proof_of_work_loop := (proof_of_work_loop json_dumps sha256_hexdigest).
Local Abbreviation proof_of_work := (proof_of_work json_dumps sha256_hexdigest).
Local Abbreviation seals := (seals json_dumps sha256_hexdigest).
Local Abbreviation new_block_of := (new_block_of json_dumps sha256_hexdigest).
Local Abbreviation mine := (mine json_dumps sha256_hexdigest).
Local Abbreviation create_genesis_block := (create_genesis_block json_dumps sha256_hexdigest).
Local Abbreviation new_blockchain := (new_blockchain json_dumps sha256_hexdigest).
Local Abbreviation exec := (exec json_dumps sha256_hexdigest).
Local Abbreviation run := (run json_dumps sha256_hexdigest).
Local Abbreviation reachable := (reachable json_dumps sha256_hexdigest).
Local Abbreviation uuid4_fresh := (uuid4_fresh json_dumps sha256_hexdigest).
Local Abbreviation wf := (wf json_dumps sha256_hexdigest).

Implicit Types (self s : TicketBlockchain pyfloat Event).
Implicit Types (b block : Block pyfloat).
Implicit Types (store : list (list (TicketTransaction pyfloat Event))).
Implicit Types (tx : TicketTransaction pyfloat Event).

Lemma str_mul_difficulty : str_mul "0" difficulty = "00".
Proof. reflexivity. Qed.

Lemma compute_hash_ext store store' b :
  store' !! transactions b = store !! transactions b →
  compute_hash store' b = compute_hash store b.
Proof. unfold compute_hash. intros ->. reflexivity. Qed.

Lemma compute_hash_is_Some store b :
  is_Some (compute_hash store b) ↔ is_Some (store !! transactions b).
Proof.
  unfold compute_hash. destruct (store !! transactions b); simpl.
  - split; eauto.
  - split; intros [? ?]; discriminate.
Qed.

Lemma compute_hash_set_hash store b h :
  compute_hash store (set_hash b h) = compute_hash store b.
Proof. reflexivity. Qed.

Lemma set_nonce_set_nonce b n m : set_nonce (set_nonce b n) m = set_nonce b m.
Proof. reflexivity. Qed.

Lemma set_nonce_nonce b : set_nonce b (nonce b) = b.
Proof. by destruct b. Qed.

Lemma transactions_set_nonce b n : transactions (set_nonce b n) = transactions b.
Proof. reflexivity. Qed.

(** Partial correctness of the loop. *)
Lemma proof_of_work_loop_sound fuel store b h b' h' :
  compute_hash store b = Some h →
  proof_of_work_loop fuel store b h = Some (b', h') →
  compute_hash store b' = Some h' ∧ startswith h' "00" = true ∧
  ∃ k : nat, b' = set_nonce b (nonce b + Z.of_nat k) ∧ k ≤ fuel ∧
    ∀ j : nat, j < k → seals store b (nonce b + Z.of_nat j) = false.
Proof.
  revert b h. induction fuel as [|fuel IH]; intros b h Hh; simpl;
    rewrite str_mul_difficulty.
  - destruct (startswith h "00") eqn:Hp; [|done].
    intros [= <- <-]. split_and!; [done..|]. exists 0. split_and!.
    + by rewrite Z.add_0_r, set_nonce_nonce.
    + lia.
    + lia.
  - destruct (startswith h "00") eqn:Hp.
    + intros [= <- <-]. split_and!; [done..|]. exists 0. split_and!.
      * by rewrite Z.add_0_r, set_nonce_nonce.
      * lia.
      * lia.
    + destruct (compute_hash store (set_nonce b (nonce b + 1))) as [h1|] eqn:H1;
        simpl; [|done].
      intros Hloop. destruct (IH _ _ H1 Hloop) as (Hc & Hs & k & -> & Hk & Hleast).
      split_and!; [done..|]. exists (S k). split_and!.
      * rewrite set_nonce_set_nonce. simpl nonce. f_equal. lia.
      * lia.
      * intros [|j] Hj.
        -- unfold seals. rewrite Z.add_0_r, set_nonce_nonce, Hh.
           by rewrite str_mul_difficulty.
        -- specialize (Hleast j ltac:(lia)).
           simpl nonce in Hleast.
           unfold seals in *. rewrite set_nonce_set_nonce in Hleast.
           replace (nonce b + Z.of_nat (S j))%Z
             with (nonce b + 1 + Z.of_nat j)%Z by lia. done.
Qed.

Lemma proof_of_work_sound fuel store b b' h' :
  proof_of_work fuel store b = Some (b', h') →
  compute_hash store b' = Some h' ∧ startswith h' "00" = true ∧
  ∃ k : nat, b' = set_nonce b (Z.of_nat k) ∧ k ≤ fuel ∧
    ∀ j : nat, j < k → seals store b (Z.of_nat j) = false.
Proof.
  unfold proof_of_work.
  destruct (compute_hash store (set_nonce b 0)) as [h|] eqn:Hh; simpl; [|done].
  intros Hloop.
  destruct (proof_of_work_loop_sound _ _ _ _ _ _ Hh Hloop)
    as (Hc & Hs & k & -> & Hk & Hleast).
  split_and!; [done..|]. exists k. split_and!; [done..|].
  intros j Hj. specialize (Hleast j Hj).
  unfold seals in *. by rewrite set_nonce_set_nonce in Hleast.
Qed.

(** Termination of the loop when some nonce seals the block. This is as far
    as C8 goes here: that every block has a sealing nonce is a property of
    SHA-256 itself, on which the loop relies without a bound. *)
Lemma proof_of_work_loop_complete (k : nat) fuel store b h :
  compute_hash store b = Some h →
  seals store b (nonce b + Z.of_nat k) = true →
  k ≤ fuel →
  is_Some (proof_of_work_loop fuel store b h).
Proof.
  revert fuel b h. induction k as [|k IH]; intros fuel b h Hh Hseal Hk.
  - unfold seals in Hseal.
    rewrite Z.add_0_r, set_nonce_nonce, Hh, str_mul_difficulty in Hseal.
    destruct fuel; simpl; rewrite str_mul_difficulty, Hseal; eauto.
  - destruct fuel as [|fuel]; [lia|]. simpl. rewrite str_mul_difficulty.
    destruct (startswith h "00"); [eauto|].
    destruct (compute_hash_is_Some store (set_nonce b (nonce b + 1))) as [_ Hsome].
    destruct Hsome as [h1 H1].
    { rewrite transactions_set_nonce. apply compute_hash_is_Some. eauto. }
    rewrite H1. simpl. apply (IH fuel _ _ H1); [|lia].
    unfold seals in *. rewrite set_nonce_set_nonce. simpl nonce.
    replace (nonce b + 1 + Z.of_nat k)%Z with (nonce b + Z.of_nat (S k))%Z by lia.
    done.
Qed.

Lemma proof_of_work_complete (k : nat) fuel store b :
  seals store b (Z.of_nat k) = true →
  k ≤ fuel →
  is_Some (proof_of_work fuel store b).
Proof.
  intros Hseal Hk. unfold proof_of_work.
  assert (is_Some (compute_hash store (set_nonce b 0))) as [h Hh].
  { apply compute_hash_is_Some. rewrite transactions_set_nonce.
    unfold seals in Hseal.
    destruct (compute_hash store (set_nonce b (Z.of_nat k))) eqn:E; [|done].
    rewrite <- (transactions_set_nonce b (Z.of_nat k)).
    apply compute_hash_is_Some. eauto. }
  rewrite Hh. simpl. apply (proof_of_work_loop_complete k); [done| |done].
  unfold seals in *. by rewrite set_nonce_set_nonce.
Qed.


(** ** The invariant *)

Lemma mapM_ext_in {A B} (f g : A → option B) (l : list A) :
  (∀ x, x ∈ l → f x = g x) → mapM f l = mapM g l.
Proof.
  induction l as [|x l IH]; intros Hfg; [done|]. simpl.
  rewrite (Hfg x) by left. rewrite IH; [done|].
  intros y Hy. apply Hfg. by right.
Qed.

Lemma mapM_snoc {A B} (f : A → option B) (l : list A) (x : A) k y :
  mapM f l = Some k → f x = Some y → mapM f (l ++ [x]) = Some (k ++ [y]).
Proof.
  intros Hl Hx. apply mapM_Some. apply Forall2_app; [by apply mapM_Some|].
  by constructor.
Qed.

Lemma block_loc_in_chain s b :
  b ∈ chain s → transactions b ∈ transactions <$> chain s.
Proof. intros Hb. apply list_elem_of_fmap. eauto. Qed.

Lemma wf_block_not_pending s b :
  wf s → b ∈ chain s → transactions b ≠ pending_transactions s.
Proof.
  intros [Hlocs _ _ _ _ _] Hb Heq. apply NoDup_cons in Hlocs as [Hnin _].
  apply Hnin. rewrite <- Heq. by apply block_loc_in_chain.
Qed.

Lemma wf_block_allocated s b :
  wf s → b ∈ chain s → transactions b < length (lists s).
Proof.
  intros Hwf Hb. apply list_elem_of_lookup in Hb as [i Hi].
  destruct (wf_hash _ _ _ Hwf i b Hi) as (h & _ & Hc & _).
  apply lookup_lt_is_Some. apply compute_hash_is_Some. eauto.
Qed.

Lemma wf_chain_nonempty s : wf s → ∃ g, chain s !! 0 = Some g.
Proof. intros Hwf. destruct (wf_genesis _ _ _ Hwf) as (g & Hg & _). eauto. Qed.

Lemma wf_new_blockchain now s0 : new_blockchain now = Some s0 → wf s0.
Proof.
  unfold new_blockchain, create_genesis_block. simpl.
  intros [= <-]. split; simpl.
  - apply NoDup_cons. split; [|apply NoDup_singleton].
    intros Hin. apply list_elem_of_singleton in Hin. discriminate.
  - unfold pending. simpl. eauto.
  - intros [|i] b; simpl; [|done]. intros [= <-]. eexists. split_and!; try done. lia.
  - intros [|i] b p; simpl; done.
  - eexists. split_and!; done.
  - exists [[]], []. done.
Qed.

(** An update of the pending list object, whatever becomes of the registry
    and the log, keeps the part of the invariant that speaks of the chain. *)
Lemma add_transaction_wf tx s s' :
  wf s → add_transaction tx s = Some s' → wf s'.
Proof.
  intros Hwf. unfold add_transaction.
  destruct (pending s) as [pend|] eqn:Hpend; simpl; [|done]. intros [= <-].
  assert (Hlt : pending_transactions s < length (lists s)).
  { by apply lookup_lt_Some in Hpend. }
  assert (Hsame : ∀ b, b ∈ chain s →
    <[pending_transactions s := pend ++ [tx]]> (lists s) !! transactions b
    = lists s !! transactions b).
  { intros b Hb. apply list_lookup_insert_ne. intros Heq.
    by apply (wf_block_not_pending s b). }
  split; simpl.
  - apply (wf_locs _ _ _ Hwf).
  - unfold pending. simpl. rewrite list_lookup_insert_eq by done. eauto.
  - intros i b Hi.
    destruct (wf_hash _ _ _ Hwf i b Hi) as (h & Hh & Hc & Hidx & Hz).
    exists h. split_and!; try done.
    rewrite <- Hc. apply compute_hash_ext, Hsame.
    by apply list_elem_of_lookup_2 in Hi.
  - apply (wf_link _ _ _ Hwf).
  - destruct (wf_genesis _ _ _ Hwf) as (g & Hg & Hi & Ht & Hp & Hn).
    exists g. split_and!; try done.
    unfold block_transactions in *. simpl. rewrite Hsame; [done|].
    by apply list_elem_of_lookup_2 in Hg.
  - destruct (wf_log _ _ _ Hwf) as (sealed & pend' & Hs & Hp & Hlog).
    rewrite Hpend in Hp. injection Hp as <-.
    exists sealed, (pend ++ [tx]). split_and!.
    + unfold sealed_transactions in *. simpl. rewrite <- Hs.
      apply mapM_ext_in. intros b Hb. unfold block_transactions. simpl.
      by apply Hsame.
    + unfold pending. simpl. by rewrite list_lookup_insert_eq.
    + rewrite Hlog. by rewrite app_assoc.
Qed.

Lemma wf_set_tickets s t :
  wf s →
  wf (mkTicketBlockchain (lists s) (chain s) (pending_transactions s) t (submitted s)).
Proof. intros [? ? ? ? ? ?]. by split. Qed.

Lemma mine_wf fuel now s s' r :
  wf s → mine fuel now s = Some (s', r) → wf s'.
Proof.
  intros Hwf. unfold mine.
  destruct (pending s) as [pend|] eqn:Hpend; simpl; [|done].
  destruct pend as [|tx0 pend0]; [by intros [= <- <-]|].
  unfold new_block_of.
  destruct (last (chain s)) as [lb|] eqn:Hlast; simpl; [|done].
  destruct (compute_hash (lists s) lb) as [prev|] eqn:Hprev; simpl; [|done].
  set (nb := Block_init _ _ _ _ _).
  destruct (proof_of_work fuel (lists s) nb) as [[nb' h]|] eqn:Hpow; simpl; [|done].
  intros [= <- <-].
  destruct (proof_of_work_sound _ _ _ _ _ Hpow) as (Hc & Hs & k & -> & _ & _).
  assert (Hplt : pending_transactions s < length (lists s)).
  { by apply lookup_lt_Some in Hpend. }
  assert (Hlast_i : chain s !! pred (length (chain s)) = Some lb).
  { by rewrite <- last_lookup. }
  assert (Hlen : 0 < length (chain s)).
  { destruct (wf_chain_nonempty _ Hwf) as [g Hg]. by apply lookup_lt_Some in Hg. }
  assert (Hold : ∀ b, b ∈ chain s →
    (lists s ++ [[]]) !! transactions b = lists s !! transactions b).
  { intros b Hb. apply lookup_app_l. by apply wf_block_allocated. }
  split; simpl.
  - rewrite fmap_app. simpl.
    pose proof (wf_locs _ _ _ Hwf) as Hnd. apply NoDup_cons in Hnd as [Hnin Hnd].
    apply NoDup_cons. split.
    + intros Hin. apply elem_of_app in Hin as [Hin|Hin].
      * apply list_elem_of_fmap in Hin as (b & Heq & Hb).
        apply (wf_block_allocated _ _ Hwf) in Hb. lia.
      * apply list_elem_of_singleton in Hin. lia.
    + apply NoDup_app. split_and!; [done| |apply NoDup_singleton].
      intros x Hx Hx'. apply list_elem_of_singleton in Hx'. by subst.
  - unfold pending. simpl. rewrite lookup_app_r by lia.
    rewrite Nat.sub_diag. simpl. eauto.
  - intros i b Hi. apply lookup_snoc_Some in Hi as [[Hlt Hi]|[-> <-]].
    + destruct (wf_hash _ _ _ Hwf i b Hi) as (h' & Hh & Hc' & Hidx & Hz).
      exists h'. split_and!; try done. rewrite <- Hc'.
      apply compute_hash_ext, Hold. by apply list_elem_of_lookup_2 in Hi.
    + exists h. split_and!; try done.
      rewrite compute_hash_set_hash, <- Hc.
      apply compute_hash_ext. simpl. by apply lookup_app_l.
  - intros i b p Hb Hp. apply lookup_snoc_Some in Hb as [[Hlt Hb]|[Hi <-]].
    + rewrite lookup_app_l in Hp by lia. by apply (wf_link _ _ _ Hwf i).
    + rewrite lookup_app_l in Hp by lia.
      assert (i = pred (length (chain s))) as -> by lia.
      rewrite Hlast_i in Hp. injection Hp as <-. simpl.
      destruct (wf_hash _ _ _ Hwf _ _ Hlast_i) as (h' & Hh & Hc' & _).
      congruence.
  - destruct (wf_genesis _ _ _ Hwf) as (g & Hg & Hi & Ht & Hp & Hn).
    exists g. split_and!; try done.
    + rewrite lookup_app_l by lia. done.
    + unfold block_transactions in *. simpl. rewrite Hold; [done|].
      by apply list_elem_of_lookup_2 in Hg.
  - destruct (wf_log _ _ _ Hwf) as (sealed & pend' & Hsl & Hp & Hlog).
    rewrite Hpend in Hp. injection Hp as <-.
    exists (sealed ++ [tx0 :: pend0]), []. split_and!.
    + unfold sealed_transactions in *. simpl. apply mapM_snoc.
      * rewrite <- Hsl. apply mapM_ext_in. intros b Hb. apply Hold, Hb.
      * unfold block_transactions. simpl. by rewrite lookup_app_l.
    + unfold pending. simpl. rewrite lookup_app_r by lia.
      by rewrite Nat.sub_diag.
    + rewrite Hlog, concat_app. simpl. by rewrite !app_nil_r.
Qed.

Lemma exec_wf c s s' r : wf s → exec c s = Some (s', r) → wf s'.
Proof.
  intros Hwf. destruct c as [u now o e|now t n|now t|t|fuel now]; simpl.
  - unfold issue_ticket.
    destruct (add_transaction _ s) as [s1|] eqn:Hadd; simpl; [|done].
    intros [= <- <-]. apply wf_set_tickets. by eapply add_transaction_wf.
  - unfold transfer_ticket. destruct (tickets s !! t) as [tk|]; simpl.
    + destruct (negb _); simpl; [by intros [= <- <-]|].
      destruct (add_transaction _ s) as [s1|] eqn:Hadd; simpl; [|done].
      intros [= <- <-]. apply wf_set_tickets. by eapply add_transaction_wf.
    + by intros [= <- <-].
  - unfold redeem_ticket. destruct (tickets s !! t) as [tk|]; simpl.
    + destruct (negb _); simpl; [by intros [= <- <-]|].
      destruct (add_transaction _ s) as [s1|] eqn:Hadd; simpl; [|done].
      intros [= <- <-]. apply wf_set_tickets. by eapply add_transaction_wf.
    + by intros [= <- <-].
  - unfold verify_ticket. destruct (tickets s !! t); by intros [= <- <-].
  - destruct (mine fuel now s) as [[s1 r1]|] eqn:Hm; simpl; [|done].
    intros [= <- <-]. by eapply mine_wf.
Qed.

Lemma run_wf cs s s' : wf s → run cs s = Some s' → wf s'.
Proof.
  revert s. induction cs as [|c cs IH]; intros s Hwf; simpl.
  - by intros [= <-].
  - destruct (exec c s) as [[s1 r]|] eqn:Hex; simpl; [|done].
    apply IH. by eapply exec_wf.
Qed.

Lemma reachable_wf s : reachable s → wf s.
Proof.
  intros (now & cs & s0 & Hnew & Hrun).
  eapply run_wf; [|done]. by eapply wf_new_blockchain.
Qed.


(** ** The claims *)

(** C1. Hash-chain linkage: in every state reachable from a fresh
    [TicketBlockchain] by calls of the interface, the [previous_hash] of the
    block at index [i + 1] is the stored [hash] of the block at index [i]. *)
Theorem hash_chain_linkage s (i : nat) b :
  reachable s →
  chain s !! S i = Some b →
  ∃ p, chain s !! i = Some p ∧ hash p = Some (previous_hash b).
Proof.
  intros Hr Hb. apply reachable_wf in Hr.
  assert (is_Some (chain s !! i)) as [p Hp].
  { apply lookup_lt_is_Some. apply lookup_lt_Some in Hb. lia. }
  exists p. split; [done|]. by apply (wf_link _ _ _ Hr i).
Qed.

(** C2. Sealed-block hash validity: in every reachable state the stored
    [hash] of every block of the chain is [compute_hash()] of its stored
    fields, and for every block but the one at index 0 that digest starts
    with ["0" * difficulty], that is with two ['0'] characters; the block at
    index 0 is the genesis block: index 0, no transactions, previous hash
    ["0"], nonce 0 (its hash is computed, with no condition on its digits). *)
Theorem sealed_block_hash_validity s :
  reachable s →
  (∀ (i : nat) b, chain s !! i = Some b →
     ∃ h, hash b = Some h ∧ compute_hash (lists s) b = Some h ∧
          (0 < i → startswith h (str_mul "0" difficulty) = true ∧
                   startswith h "00" = true)) ∧
  (∃ g, chain s !! 0 = Some g ∧ index g = 0%Z ∧
        block_transactions s g = Some [] ∧
        previous_hash g = "0" ∧ nonce g = 0%Z).
Proof.
  intros Hr. apply reachable_wf in Hr. split.
  - intros i b Hi.
    destruct (wf_hash _ _ _ Hr i b Hi) as (h & Hh & Hc & _ & Hz).
    exists h. split_and!; [done..|]. intros Hpos.
    rewrite str_mul_difficulty. split; by apply Hz.
  - apply (wf_genesis _ _ _ Hr).
Qed.

(** C3. [mine()] on a non-empty pending buffer, in a reachable state in which
    some nonce [n] seals the block that [mine] builds: given at least [n]
    iterations, the call returns a block whose index is the length of the
    chain before the call, whose transactions are the pending transactions
    in their order, whose previous hash is the hash of the last block, and
    which is sealed by the search (its digest starts with two zeros, at the
    least sealing nonce); the block is appended to the chain, which grows by
    one, and the pending buffer is a new, empty list, not the list of the
    block. *)
Theorem mine_seals_pending fuel now s pend candidate (n : nat) :
  reachable s →
  pending s = Some pend →
  pend ≠ [] →
  new_block_of now s = Some candidate →
  seals (lists s) candidate (Z.of_nat n) = true →
  n ≤ fuel →
  ∃ s' b h lb (k : nat),
    mine fuel now s = Some (s', Some b) ∧
    index b = Z.of_nat (length (chain s)) ∧
    block_transactions s' b = Some pend ∧
    last (chain s) = Some lb ∧ hash lb = Some (previous_hash b) ∧
    nonce b = Z.of_nat k ∧ k ≤ n ∧
    (∀ j : nat, j < k → seals (lists s) candidate (Z.of_nat j) = false) ∧
    hash b = Some h ∧ compute_hash (lists s') b = Some h ∧
    startswith h "00" = true ∧
    chain s' = chain s ++ [b] ∧
    length (chain s') = S (length (chain s)) ∧
    pending s' = Some [] ∧
    pending_transactions s' ≠ transactions b ∧
    tickets s' = tickets s.
Proof.
  intros Hr Hpend Hne Hcand Hseal Hfuel. apply reachable_wf in Hr.
  destruct (proof_of_work_complete n fuel (lists s) candidate Hseal Hfuel)
    as [[b' h] Hpow].
  destruct (proof_of_work_sound _ _ _ _ _ Hpow) as (Hc & Hs & k & -> & Hk & Hleast).
  assert (Hkn : k ≤ n).
  { destruct (decide (k ≤ n)) as [|Hgt]; [done|].
    rewrite (Hleast n) in Hseal by lia. done. }
  pose proof Hcand as Hcand'. unfold new_block_of in Hcand'.
  destruct (last (chain s)) as [lb|] eqn:Hlast; simpl in Hcand'; [|done].
  destruct (compute_hash (lists s) lb) as [prev|] eqn:Hprev; simpl in Hcand'; [|done].
  injection Hcand' as <-.
  assert (Hplt : pending_transactions s < length (lists s)).
  { by apply lookup_lt_Some in Hpend. }
  assert (Hlb : chain s !! pred (length (chain s)) = Some lb).
  { by rewrite <- last_lookup. }
  destruct (wf_hash _ _ _ Hr _ _ Hlb) as (hl & Hhl & Hcl & _).
  eexists _, _, h, lb, k. split_and!.
  - unfold mine. rewrite Hpend. simpl.
    destruct pend as [|tx0 pend0]; [done|].
    rewrite Hcand. simpl. rewrite Hpow. simpl. reflexivity.
  - done.
  - unfold block_transactions. simpl. by rewrite lookup_app_l.
  - done.
  - simpl. congruence.
  - done.
  - done.
  - done.
  - done.
  - rewrite compute_hash_set_hash, <- Hc. apply compute_hash_ext. simpl.
    by apply lookup_app_l.
  - done.
  - done.
  - simpl. rewrite length_app. simpl. lia.
  - unfold pending. simpl. rewrite lookup_app_r by lia.
    by rewrite Nat.sub_diag.
  - simpl. lia.
  - done.
Qed.

(** C4. Transaction conservation: in every reachable state, the log of the
    transactions handed to [add_transaction] is, position by position, the
    concatenation of the transaction lists of the blocks of the chain, in
    chain order, followed by the pending list. So each logged transaction
    sits in the pending list or in one block, in one place only (the
    lengths add up), and none is missing; the pending list and the lists of
    the blocks are pairwise distinct list objects. *)
Theorem transaction_conservation s :
  reachable s →
  ∃ sealed pend,
    sealed_transactions s = Some sealed ∧
    pending s = Some pend ∧
    submitted s = concat sealed ++ pend ∧
    (∀ tx, tx ∈ submitted s ↔ tx ∈ pend ∨ ∃ txs, txs ∈ sealed ∧ tx ∈ txs) ∧
    length (submitted s) = list_sum (length <$> sealed) + length pend ∧
    NoDup (pending_transactions s :: (transactions <$> chain s)).
Proof.
  intros Hr. apply reachable_wf in Hr.
  destruct (wf_log _ _ _ Hr) as (sealed & pend & Hs & Hp & Hlog).
  exists sealed, pend. split_and!; try done.
  - intros tx. rewrite Hlog, elem_of_app, list_elem_of_In, in_concat. split.
    + intros [(txs & Htxs & Htx)|Htx]; [right|by left].
      exists txs. by rewrite !list_elem_of_In.
    + intros [Htx|(txs & Htxs & Htx)]; [by right|left].
      exists txs. by rewrite <- !list_elem_of_In.
  - rewrite Hlog, length_app, length_concat. done.
  - apply (wf_locs _ _ _ Hr).
Qed.

Lemma add_transaction_Some tx s pend :
  pending s = Some pend →
  add_transaction tx s =
    Some (mkTicketBlockchain
            (<[pending_transactions s := pend ++ [tx]]> (lists s))
            (chain s) (pending_transactions s) (tickets s) (submitted s ++ [tx])).
Proof. intros Hp. unfold add_transaction. by rewrite Hp. Qed.

Lemma status_test_valid (t : Ticket Event) :
  negb (String.eqb (status t) "valid") = false ↔ status t = "valid".
Proof. rewrite negb_false_iff. apply String.eqb_eq. Qed.

Lemma status_test_invalid (t : Ticket Event) :
  negb (String.eqb (status t) "valid") = true ↔ status t ≠ "valid".
Proof. rewrite negb_true_iff. apply String.eqb_neq. Qed.

(** C5. [transfer_ticket(ticket_id, new_owner)], in a state whose pending
    reference is a list: it returns [False] exactly when the ticket is not
    in the registry or its status is not ["valid"], and the whole state is
    then unchanged; otherwise it returns [True], appends one transfer
    transaction to the pending list, carrying the owner before the transfer
    and the new owner, and sets the owner of the registry entry, leaving its
    status and event, the other entries and the chain as they were. *)
Theorem transfer_ticket_spec now ticket_id new_owner s pend :
  pending s = Some pend →
  let failing :=
    tickets s !! ticket_id = None ∨
    ∃ t, tickets s !! ticket_id = Some t ∧ status t ≠ "valid" in
  (failing → transfer_ticket now ticket_id new_owner s = Some (s, false)) ∧
  (∀ s', transfer_ticket now ticket_id new_owner s = Some (s', false) →
         failing ∧ s' = s) ∧
  (¬ failing →
   ∃ t s',
     tickets s !! ticket_id = Some t ∧ status t = "valid" ∧
     transfer_ticket now ticket_id new_owner s = Some (s', true) ∧
     pending s' =
       Some (pend ++ [mkTicketTransaction "transfer" ticket_id (owner t)
                        None (Some new_owner) now]) ∧
     submitted s' =
       submitted s ++ [mkTicketTransaction "transfer" ticket_id (owner t)
                         None (Some new_owner) now] ∧
     tickets s' =
       <[ticket_id := mkTicket new_owner (status t) (event t)]> (tickets s) ∧
     chain s' = chain s ∧
     pending_transactions s' = pending_transactions s ∧
     (∀ l, l ≠ pending_transactions s → lists s' !! l = lists s !! l)).
Proof.
  intros Hp failing. unfold transfer_ticket.
  destruct (tickets s !! ticket_id) as [t|] eqn:Ht.
  - destruct (negb (String.eqb (status t) "valid")) eqn:Hst.
    + apply status_test_invalid in Hst. split_and!.
      * done.
      * intros s' [= <-]. split; [|done]. right. eauto.
      * intros Hnf. exfalso. apply Hnf. right. eauto.
    + apply status_test_valid in Hst.
      rewrite (add_transaction_Some _ _ _ Hp). simpl. split_and!.
      * intros [Hnone|(t' & [= <-] & Hne)]; done.
      * intros s' [=].
      * intros _. eexists t, _. split_and!; try done.
        -- unfold pending. simpl. rewrite list_lookup_insert_eq; [done|].
           by apply lookup_lt_Some in Hp.
        -- intros l Hl. simpl. by apply list_lookup_insert_ne.
  - split_and!.
    + done.
    + intros s' [= <-]. split; [|done]. by left.
    + intros Hnf. exfalso. apply Hnf. by left.
Qed.

(** A registry entry whose status is ["redeemed"] is left as it is by every
    call, as long as [uuid4] does not draw its key again. *)
Lemma exec_keeps_redeemed c s s' r ticket_id t :
  tickets s !! ticket_id = Some t → status t = "redeemed" →
  uuid4_fresh [c] s →
  exec c s = Some (s', r) →
  tickets s' !! ticket_id = Some t.
Proof.
  intros Ht Hst [Hfresh _].
  destruct c as [u now o e|now t' n|now t'|t'|fuel now]; simpl.
  - unfold issue_ticket.
    destruct (add_transaction _ s) as [s1|] eqn:Hadd; simpl; [|done].
    intros [= <- <-]. simpl.
    unfold add_transaction in Hadd.
    destruct (pending s); simpl in Hadd; [|done]. injection Hadd as <-. simpl.
    rewrite lookup_insert_ne; [done|]. intros ->. congruence.
  - unfold transfer_ticket. destruct (tickets s !! t') as [tk|] eqn:Htk.
    + destruct (negb (String.eqb (status tk) "valid")) eqn:Hv;
        [by intros [= <- <-]|].
      apply status_test_valid in Hv.
      destruct (add_transaction _ s) as [s1|] eqn:Hadd; simpl; [|done].
      intros [= <- <-]. simpl.
      unfold add_transaction in Hadd.
      destruct (pending s); simpl in Hadd; [|done]. injection Hadd as <-. simpl.
      rewrite lookup_insert_ne; [done|]. intros ->.
      rewrite Ht in Htk. injection Htk as <-. rewrite Hst in Hv. done.
    + by intros [= <- <-].
  - unfold redeem_ticket. destruct (tickets s !! t') as [tk|] eqn:Htk.
    + destruct (negb (String.eqb (status tk) "valid")) eqn:Hv;
        [by intros [= <- <-]|].
      apply status_test_valid in Hv.
      destruct (add_transaction _ s) as [s1|] eqn:Hadd; simpl; [|done].
      intros [= <- <-]. simpl.
      unfold add_transaction in Hadd.
      destruct (pending s); simpl in Hadd; [|done]. injection Hadd as <-. simpl.
      rewrite lookup_insert_ne; [done|]. intros ->.
      rewrite Ht in Htk. injection Htk as <-. rewrite Hst in Hv. done.
    + by intros [= <- <-].
  - unfold verify_ticket. destruct (tickets s !! t'); by intros [= <- <-].
  - unfold mine. destruct (pending s) as [pend|]; simpl; [|done].
    destruct pend; [by intros [= <- <-]|].
    destruct (new_block_of now s); simpl; [|done].
    destruct (proof_of_work _ _ _) as [[? ?]|]; simpl; [|done].
    by intros [= <- <-].
Qed.

Lemma run_keeps_redeemed cs s s' ticket_id t :
  tickets s !! ticket_id = Some t → status t = "redeemed" →
  uuid4_fresh cs s →
  run cs s = Some s' →
  tickets s' !! ticket_id = Some t.
Proof.
  revert s. induction cs as [|c cs IH]; intros s Ht Hst Hfresh; simpl.
  - by intros [= <-].
  - destruct Hfresh as [Hc Hrest].
    destruct (exec c s) as [[s1 r]|] eqn:Hex; simpl; [|done].
    apply IH; [|done|done].
    eapply exec_keeps_redeemed; [done|done| |done].
    split; [done|]. simpl. by rewrite Hex.
Qed.

Lemma redeem_ticket_true now ticket_id s s' :
  redeem_ticket now ticket_id s = Some (s', true) →
  ∃ t, tickets s !! ticket_id = Some t ∧ status t = "valid" ∧
       tickets s' !! ticket_id = Some (mkTicket (owner t) "redeemed" (event t)).
Proof.
  unfold redeem_ticket. destruct (tickets s !! ticket_id) as [t|]; [|done].
  destruct (negb (String.eqb (status t) "valid")) eqn:Hv; [done|].
  apply status_test_valid in Hv.
  destruct (add_transaction _ s) as [s1|]; simpl; [|done].
  intros [= <-]. exists t. split_and!; [done..|]. simpl.
  by rewrite lookup_insert_eq.
Qed.

(** C6. Redemption is terminal: after [redeem_ticket(ticket_id)] has
    returned [True], along every run of calls in which [uuid4] draws fresh
    identifiers, the registry entry of the ticket stays as the redemption
    left it, with status ["redeemed"], and every [transfer_ticket] and
    [redeem_ticket] on it returns [False] and leaves the state unchanged. *)
Theorem redemption_is_terminal now ticket_id s0 s1 cs s2 :
  redeem_ticket now ticket_id s0 = Some (s1, true) →
  uuid4_fresh cs s1 →
  run cs s1 = Some s2 →
  (∃ t, tickets s1 !! ticket_id = Some t ∧ status t = "redeemed" ∧
        tickets s2 !! ticket_id = Some t) ∧
  (∀ now' new_owner,
     transfer_ticket now' ticket_id new_owner s2 = Some (s2, false)) ∧
  (∀ now', redeem_ticket now' ticket_id s2 = Some (s2, false)).
Proof.
  intros Hred Hfresh Hrun.
  destruct (redeem_ticket_true _ _ _ _ Hred) as (t & _ & _ & Ht1).
  set (t1 := mkTicket (owner t) "redeemed" (event t)) in *.
  assert (Ht2 : tickets s2 !! ticket_id = Some t1).
  { by eapply run_keeps_redeemed. }
  split_and!.
  - by exists t1.
  - intros now' n. unfold transfer_ticket. by rewrite Ht2.
  - intros now'. unfold redeem_ticket. by rewrite Ht2.
Qed.

(** C7. [mine()] with an empty pending buffer returns [None] and leaves the
    whole state (chain, pending buffer, registry) as it was, whatever the
    iterations granted. *)
Theorem mine_empty_is_noop fuel now s :
  pending s = Some [] →
  mine fuel now s = Some (s, None).
Proof. intros Hp. unfold mine. by rewrite Hp. Qed.

(** C9. [verify_ticket(ticket_id)] is a pure read: the state it leaves is
    the state it was called in, its result is the registry entry of
    [ticket_id], [None] for an unknown identifier, and a second call returns
    what the first returned. *)
Theorem verify_ticket_pure_read ticket_id s :
  (verify_ticket ticket_id s).1 = s ∧
  (verify_ticket ticket_id s).2 = tickets s !! ticket_id ∧
  (tickets s !! ticket_id = None → (verify_ticket ticket_id s).2 = None) ∧
  verify_ticket ticket_id (verify_ticket ticket_id s).1 = verify_ticket ticket_id s.
Proof.
  unfold verify_ticket. destruct (tickets s !! ticket_id) as [t|] eqn:Ht; simpl.
  - rewrite Ht. done.
  - rewrite Ht. done.
Qed.

Lemma same_chain_refl s : same_chain s s.
Proof. by split. Qed.

Lemma add_transaction_same_chain tx s s' t :
  wf s → add_transaction tx s = Some s' →
  same_chain s (mkTicketBlockchain (lists s') (chain s')
                  (pending_transactions s') t (submitted s')).
Proof.
  intros Hwf. unfold add_transaction.
  destruct (pending s) as [pend|]; simpl; [|done]. intros [= <-].
  split; simpl; [done|]. intros b Hb. unfold block_transactions. simpl.
  apply list_lookup_insert_ne. intros Heq.
  by apply (wf_block_not_pending s b).
Qed.

(** C10. Frame: in every reachable state, [issue_ticket], [transfer_ticket],
    [redeem_ticket] and [verify_ticket] return and leave the chain as it
    was, the blocks and the transactions behind them; a transfer or a
    redemption that returns [True] leaves the registry entries of the other
    tickets as they were; a transfer keeps the event of the entry, a
    redemption its owner and its event. *)
Theorem frame_property s :
  reachable s →
  (∀ uuid4 now o e, ∃ s' r,
     issue_ticket uuid4 now o e s = Some (s', r) ∧ same_chain s s') ∧
  (∀ now t n, ∃ s' r,
     transfer_ticket now t n s = Some (s', r) ∧ same_chain s s' ∧
     (r = true →
      (∀ t', t' ≠ t → tickets s' !! t' = tickets s !! t') ∧
      event <$> tickets s' !! t = event <$> tickets s !! t)) ∧
  (∀ now t, ∃ s' r,
     redeem_ticket now t s = Some (s', r) ∧ same_chain s s' ∧
     (r = true →
      (∀ t', t' ≠ t → tickets s' !! t' = tickets s !! t') ∧
      owner <$> tickets s' !! t = owner <$> tickets s !! t ∧
      event <$> tickets s' !! t = event <$> tickets s !! t)) ∧
  (∀ t, same_chain s (verify_ticket t s).1).
Proof.
  intros Hr. apply reachable_wf in Hr.
  destruct (wf_pending _ _ _ Hr) as [pend Hp].
  split_and!.
  - intros u now o e. unfold issue_ticket.
    destruct (add_transaction _ s) as [s1|] eqn:Hadd.
    + simpl. eexists _, _. split; [done|].
      by eapply add_transaction_same_chain.
    + by rewrite (add_transaction_Some _ _ _ Hp) in Hadd.
  - intros now t n. unfold transfer_ticket.
    destruct (tickets s !! t) as [tk|] eqn:Htk.
    + destruct (negb _).
      * eexists _, _. split_and!; [done|apply same_chain_refl|done].
      * destruct (add_transaction _ s) as [s1|] eqn:Hadd.
        -- simpl. eexists _, _. split_and!; [done| |].
           ++ by eapply add_transaction_same_chain.
           ++ intros _. simpl. rewrite (add_transaction_Some _ _ _ Hp) in Hadd.
              injection Hadd as <-. simpl. split.
              ** intros t' Hne. by rewrite lookup_insert_ne.
              ** by rewrite lookup_insert_eq.
        -- by rewrite (add_transaction_Some _ _ _ Hp) in Hadd.
    + eexists _, _. split_and!; [done|apply same_chain_refl|done].
  - intros now t. unfold redeem_ticket.
    destruct (tickets s !! t) as [tk|] eqn:Htk.
    + destruct (negb _).
      * eexists _, _. split_and!; [done|apply same_chain_refl|done].
      * destruct (add_transaction _ s) as [s1|] eqn:Hadd.
        -- simpl. eexists _, _. split_and!; [done| |].
           ++ by eapply add_transaction_same_chain.
           ++ intros _. simpl. rewrite (add_transaction_Some _ _ _ Hp) in Hadd.
              injection Hadd as <-. simpl. split_and!.
              ** intros t' Hne. by rewrite lookup_insert_ne.
              ** by rewrite lookup_insert_eq.
              ** by rewrite lookup_insert_eq.
        -- by rewrite (add_transaction_Some _ _ _ Hp) in Hadd.
    + eexists _, _. split_and!; [done|apply same_chain_refl|done].
  - intros t. unfold verify_ticket.
    destruct (tickets s !! t); apply same_chain_refl.
Qed.

(** ** Further properties of the ledger *)

(** X1. [redeem_ticket(ticket_id)], in a state whose pending reference is a
    list: it returns [False] exactly when the ticket is not in the registry
    or its status is not ["valid"], and the whole state is then unchanged;
    otherwise it returns [True], appends one redeem transaction carrying the
    current owner (no event, no new owner), and sets the status of the
    entry to ["redeemed"], leaving its owner and event, the other entries
    and the chain as they were. *)
Theorem redeem_ticket_spec now ticket_id s pend :
  pending s = Some pend →
  let failing :=
    tickets s !! ticket_id = None ∨
    ∃ t, tickets s !! ticket_id = Some t ∧ status t ≠ "valid" in
  (failing → redeem_ticket now ticket_id s = Some (s, false)) ∧
  (∀ s', redeem_ticket now ticket_id s = Some (s', false) → failing ∧ s' = s) ∧
  (¬ failing →
   ∃ t s',
     tickets s !! ticket_id = Some t ∧ status t = "valid" ∧
     redeem_ticket now ticket_id s = Some (s', true) ∧
     pending s' =
       Some (pend ++ [mkTicketTransaction "redeem" ticket_id (owner t)
                        None None now]) ∧
     tickets s' =
       <[ticket_id := mkTicket (owner t) "redeemed" (event t)]> (tickets s) ∧
     chain s' = chain s ∧
     pending_transactions s' = pending_transactions s ∧
     (∀ l, l ≠ pending_transactions s → lists s' !! l = lists s !! l)).
Proof.
  intros Hp failing. unfold redeem_ticket.
  destruct (tickets s !! ticket_id) as [t|] eqn:Ht.
  - destruct (negb (String.eqb (status t) "valid")) eqn:Hst.
    + apply status_test_invalid in Hst. split_and!.
      * done.
      * intros s' [= <-]. split; [|done]. right. eauto.
      * intros Hnf. exfalso. apply Hnf. right. eauto.
    + apply status_test_valid in Hst.
      rewrite (add_transaction_Some _ _ _ Hp). simpl. split_and!.
      * intros [Hnone|(t' & [= <-] & Hne)]; done.
      * intros s' [=].
      * intros _. eexists t, _. split_and!; try done.
        -- unfold pending. simpl. rewrite list_lookup_insert_eq; [done|].
           by apply lookup_lt_Some in Hp.
        -- intros l Hl. simpl. by apply list_lookup_insert_ne.
  - split_and!.
    + done.
    + intros s' [= <-]. split; [|done]. by left.
    + intros Hnf. exfalso. apply Hnf. by left.
Qed.

(** X2. [issue_ticket(owner, event)], in a state whose pending reference is
    a list, always succeeds: it returns the identifier drawn by [uuid4],
    appends one issue transaction with the owner and the event, and binds
    the identifier to [{owner, "valid", event}] in the registry, whatever
    was bound to it before; [verify_ticket] of the returned identifier then
    gives that entry, and the other identifiers and the chain are as they
    were. *)
Theorem issue_then_verify uuid4 now o e s pend :
  pending s = Some pend →
  ∃ s',
    issue_ticket uuid4 now o e s = Some (s', uuid4) ∧
    pending s' =
      Some (pend ++ [mkTicketTransaction "issue" uuid4 o (Some e) None now]) ∧
    verify_ticket uuid4 s' = (s', Some (mkTicket o "valid" e)) ∧
    (∀ id, id ≠ uuid4 → (verify_ticket id s').2 = (verify_ticket id s).2) ∧
    chain s' = chain s.
Proof.
  intros Hp. unfold issue_ticket.
  rewrite (add_transaction_Some _ _ _ Hp). simpl. eexists. split_and!.
  - done.
  - unfold pending. simpl. rewrite list_lookup_insert_eq; [done|].
    by apply lookup_lt_Some in Hp.
  - unfold verify_ticket. simpl. by rewrite lookup_insert_eq.
  - intros id Hne. unfold verify_ticket. simpl.
    rewrite lookup_insert_ne by done. by destruct (tickets s !! id).
  - done.
Qed.

(** The search of [proof_of_work] ends exactly when some nonce seals the
    block, and then at the least one. *)
Lemma seals_spec store b (k : nat) :
  seals store b (Z.of_nat k) = true ↔
  ∃ h, compute_hash store (set_nonce b (Z.of_nat k)) = Some h ∧
       startswith h "00" = true.
Proof.
  unfold seals. rewrite str_mul_difficulty.
  destruct (compute_hash store (set_nonce b (Z.of_nat k))) as [h|].
  - split; [eauto|]. by intros (h' & [= <-] & Hs).
  - split; [done|]. by intros (h' & [=] & _).
Qed.

(** X3. [proof_of_work(block)] returns after [k] increments of the nonce,
    with the digest [h] and the block's nonce left at [k], exactly when [k]
    is the least nonce from 0 whose digest starts with ["0" * difficulty]
    (two zeros): the nonce the block came with is overwritten, the other
    fields are kept, and [h] is the digest of the block as it is left. *)
Theorem proof_of_work_spec fuel store b b' h :
  proof_of_work fuel store b = Some (b', h) ↔
  ∃ k : nat,
    k ≤ fuel ∧ b' = set_nonce b (Z.of_nat k) ∧
    compute_hash store b' = Some h ∧ startswith h "00" = true ∧
    ∀ j : nat, j < k → seals store b (Z.of_nat j) = false.
Proof.
  split.
  - intros Hpow.
    destruct (proof_of_work_sound _ _ _ _ _ Hpow) as (Hc & Hs & k & -> & Hk & Hl).
    exists k. split_and!; done.
  - intros (k & Hk & -> & Hc & Hs & Hleast).
    assert (Hseal : seals store b (Z.of_nat k) = true).
    { apply seals_spec. eauto. }
    destruct (proof_of_work_complete k fuel store b Hseal Hk) as [[b2 h2] Hpow].
    rewrite Hpow. f_equal.
    destruct (proof_of_work_sound _ _ _ _ _ Hpow) as (Hc2 & Hs2 & k2 & -> & Hk2 & Hl2).
    assert (k2 = k) as ->.
    { destruct (Nat.lt_trichotomy k2 k) as [Hlt|[Heq|Hgt]]; [|done|].
      - assert (seals store b (Z.of_nat k2) = true) as Ht
          by (apply seals_spec; eauto).
        rewrite (Hleast k2 Hlt) in Ht. done.
      - rewrite (Hl2 k Hgt) in Hseal. done. }
    congruence.
Qed.

(** X4. After a call of [mine] that returned a block, the pending buffer is
    empty, so that a second call of [mine] returns [None] and changes
    nothing. *)
Theorem mine_twice fuel now s s' b fuel' now' :
  mine fuel now s = Some (s', Some b) →
  mine fuel' now' s' = Some (s', None).
Proof.
  unfold mine at 1.
  destruct (pending s) as [pend|] eqn:Hp; simpl; [|done].
  destruct pend as [|tx0 pend0]; [done|].
  destruct (new_block_of now s) as [nb|]; simpl; [|done].
  destruct (proof_of_work fuel (lists s) nb) as [[nb' h]|]; simpl; [|done].
  intros [= <- <-]. unfold mine, pending. simpl.
  rewrite lookup_app_r by lia. by rewrite Nat.sub_diag.
Qed.

(** X5. [TicketBlockchain()] always succeeds and gives a ledger whose chain
    is the genesis block alone (index 0, no transaction, previous hash
    ["0"], nonce 0, hash computed from these), with an empty pending buffer
    and an empty registry: on it [verify_ticket] finds nothing,
    [transfer_ticket] and [redeem_ticket] fail and [mine] does nothing. *)
Theorem new_blockchain_spec now :
  ∃ s g,
    new_blockchain now = Some s ∧
    chain s = [g] ∧
    index g = 0%Z ∧ block_transactions s g = Some [] ∧
    previous_hash g = "0" ∧ nonce g = 0%Z ∧ timestamp g = now ∧
    hash g = compute_hash (lists s) g ∧ is_Some (hash g) ∧
    pending s = Some [] ∧ tickets s = ∅ ∧ submitted s = [] ∧
    (∀ id, verify_ticket id s = (s, None)) ∧
    (∀ t id n, transfer_ticket t id n s = Some (s, false)) ∧
    (∀ t id, redeem_ticket t id s = Some (s, false)) ∧
    (∀ fuel t, mine fuel t s = Some (s, None)).
Proof.
  eexists _, _. split_and!; done.
Qed.

Lemma transfer_ticket_valid now id n s t pend :
  tickets s !! id = Some t → status t = "valid" → pending s = Some pend →
  transfer_ticket now id n s =
    Some (mkTicketBlockchain
            (<[pending_transactions s :=
                 pend ++ [mkTicketTransaction "transfer" id (owner t) None (Some n) now]]>
               (lists s))
            (chain s) (pending_transactions s)
            (<[id := mkTicket n (status t) (event t)]> (tickets s))
            (submitted s ++ [mkTicketTransaction "transfer" id (owner t) None (Some n) now]),
          true).
Proof.
  intros Ht Hst Hp. unfold transfer_ticket. rewrite Ht.
  apply status_test_valid in Hst. rewrite Hst.
  by rewrite (add_transaction_Some _ _ _ Hp).
Qed.

Lemma redeem_ticket_valid now id s t pend :
  tickets s !! id = Some t → status t = "valid" → pending s = Some pend →
  redeem_ticket now id s =
    Some (mkTicketBlockchain
            (<[pending_transactions s :=
                 pend ++ [mkTicketTransaction "redeem" id (owner t) None None now]]>
               (lists s))
            (chain s) (pending_transactions s)
            (<[id := mkTicket (owner t) "redeemed" (event t)]> (tickets s))
            (submitted s ++ [mkTicketTransaction "redeem" id (owner t) None None now]),
          true).
Proof.
  intros Ht Hst Hp. unfold redeem_ticket. rewrite Ht.
  apply status_test_valid in Hst. rewrite Hst.
  by rewrite (add_transaction_Some _ _ _ Hp).
Qed.

Lemma transfer_ticket_true now id n s s' :
  transfer_ticket now id n s = Some (s', true) →
  ∃ t pend, tickets s !! id = Some t ∧ status t = "valid" ∧ pending s = Some pend.
Proof.
  unfold transfer_ticket. destruct (tickets s !! id) as [t|]; [|done].
  destruct (negb (String.eqb (status t) "valid")) eqn:Hst; [done|].
  apply status_test_valid in Hst. unfold add_transaction.
  destruct (pending s) as [pend|]; [|done]. eauto.
Qed.

Lemma redeem_ticket_true_pending now id s s' :
  redeem_ticket now id s = Some (s', true) →
  ∃ t pend, tickets s !! id = Some t ∧ status t = "valid" ∧ pending s = Some pend.
Proof.
  unfold redeem_ticket. destruct (tickets s !! id) as [t|]; [|done].
  destruct (negb (String.eqb (status t) "valid")) eqn:Hst; [done|].
  apply status_test_valid in Hst. unfold add_transaction.
  destruct (pending s) as [pend|]; [|done]. eauto.
Qed.

Lemma pending_after_append s pend tx t log :
  pending s = Some pend →
  pending (mkTicketBlockchain (<[pending_transactions s := pend ++ [tx]]> (lists s))
             (chain s) (pending_transactions s) t log)
  = Some (pend ++ [tx]).
Proof.
  intros Hp. unfold pending. simpl. rewrite list_lookup_insert_eq; [done|].
  by apply lookup_lt_Some in Hp.
Qed.

(** X6. A transfer that returned [True] leaves the ticket valid: it can be
    transferred again, and the transaction of the second transfer carries
    the first new owner as its owner; it can also still be redeemed. *)
Theorem transfer_is_repeatable now id n s s' now' n' :
  transfer_ticket now id n s = Some (s', true) →
  ∃ e s'' pend',
    tickets s' !! id = Some (mkTicket n "valid" e) ∧
    pending s' = Some pend' ∧
    transfer_ticket now' id n' s' = Some (s'', true) ∧
    tickets s'' !! id = Some (mkTicket n' "valid" e) ∧
    pending s'' =
      Some (pend' ++ [mkTicketTransaction "transfer" id n None (Some n') now']) ∧
    (∃ s3, redeem_ticket now' id s' = Some (s3, true)).
Proof.
  intros Htr.
  destruct (transfer_ticket_true _ _ _ _ _ Htr) as (t & pend & Ht & Hst & Hp).
  rewrite (transfer_ticket_valid _ _ _ _ _ _ Ht Hst Hp) in Htr.
  injection Htr as <-.
  set (tx := mkTicketTransaction "transfer" id (owner t) None (Some n) now).
  set (s1 := mkTicketBlockchain _ _ _ _ _).
  assert (Hp1 : pending s1 = Some (pend ++ [tx])) by by apply pending_after_append.
  assert (Ht1 : tickets s1 !! id = Some (mkTicket n "valid" (event t))).
  { subst s1. simpl. rewrite lookup_insert_eq. by rewrite Hst. }
  exists (event t). eexists _, _. split_and!.
  - exact Ht1.
  - exact Hp1.
  - by apply (transfer_ticket_valid now' id n' s1 _ _ Ht1 eq_refl Hp1).
  - simpl. by rewrite lookup_insert_eq.
  - by apply pending_after_append.
  - eexists. by apply (redeem_ticket_valid now' id s1 _ _ Ht1 eq_refl Hp1).
Qed.

(** What a call of [mine] that returned did. *)
Lemma mine_Some_block fuel now s s' b :
  mine fuel now s = Some (s', Some b) →
  ∃ tx0 pend0 nb (k : nat) h,
    pending s = Some (tx0 :: pend0) ∧ new_block_of now s = Some nb ∧
    b = set_hash (set_nonce nb (Z.of_nat k)) h ∧
    compute_hash (lists s) (set_nonce nb (Z.of_nat k)) = Some h ∧
    startswith h "00" = true ∧
    s' = mkTicketBlockchain (lists s ++ [[]]) (chain s ++ [b])
           (length (lists s)) (tickets s) (submitted s).
Proof.
  unfold mine.
  destruct (pending s) as [pend|] eqn:Hp; simpl; [|done].
  destruct pend as [|tx0 pend0]; [done|].
  destruct (new_block_of now s) as [nb|]; simpl; [|done].
  destruct (proof_of_work fuel (lists s) nb) as [[nb' h]|] eqn:Hpow; simpl; [|done].
  intros [= <- <-].
  destruct (proof_of_work_sound _ _ _ _ _ Hpow) as (Hc & Hs & k & -> & _ & _).
  by exists tx0, pend0, nb, k, h.
Qed.

Lemma mine_Some_None fuel now s s' :
  mine fuel now s = Some (s', None) → s' = s ∧ pending s = Some [].
Proof.
  unfold mine.
  destruct (pending s) as [pend|] eqn:Hp; simpl; [|done].
  destruct pend as [|tx0 pend0]; [by intros [= <-]|].
  destruct (new_block_of now s) as [nb|]; simpl; [|done].
  destruct (proof_of_work fuel (lists s) nb) as [[nb' h]|]; simpl; done.
Qed.

Lemma new_block_of_fields now s nb :
  new_block_of now s = Some nb →
  index nb = Z.of_nat (length (chain s)) ∧
  transactions nb = pending_transactions s ∧ timestamp nb = now.
Proof.
  unfold new_block_of. destruct (last (chain s)); simpl; [|done].
  destruct (compute_hash _ _); simpl; [|done]. by intros [= <-].
Qed.

(** One call extends the chain, if at all, at its end, and leaves the lists
    of the blocks it had as they were. *)
Lemma exec_extends c s s' r :
  wf s → exec c s = Some (s', r) →
  ∃ new, chain s' = chain s ++ new ∧
         ∀ b, b ∈ chain s → block_transactions s' b = block_transactions s b.
Proof.
  intros Hwf Hex.
  assert (Hsame : ∀ s1, same_chain s s1 →
    ∃ new, chain s1 = chain s ++ new ∧
           ∀ b, b ∈ chain s → block_transactions s1 b = block_transactions s b).
  { intros s1 [Hc Hb]. exists []. by rewrite app_nil_r. }
  destruct c as [u now o e|now t n|now t|t|fuel now]; simpl in Hex.
  - unfold issue_ticket in Hex.
    destruct (add_transaction _ s) as [s1|] eqn:Hadd; simpl in Hex; [|done].
    injection Hex as <- <-. apply Hsame. by eapply add_transaction_same_chain.
  - unfold transfer_ticket in Hex. destruct (tickets s !! t) as [tk|].
    + destruct (negb _).
      * injection Hex as <- <-. apply Hsame, same_chain_refl.
      * destruct (add_transaction _ s) as [s1|] eqn:Hadd; simpl in Hex; [|done].
        injection Hex as <- <-. apply Hsame. by eapply add_transaction_same_chain.
    + injection Hex as <- <-. apply Hsame, same_chain_refl.
  - unfold redeem_ticket in Hex. destruct (tickets s !! t) as [tk|].
    + destruct (negb _).
      * injection Hex as <- <-. apply Hsame, same_chain_refl.
      * destruct (add_transaction _ s) as [s1|] eqn:Hadd; simpl in Hex; [|done].
        injection Hex as <- <-. apply Hsame. by eapply add_transaction_same_chain.
    + injection Hex as <- <-. apply Hsame, same_chain_refl.
  - unfold verify_ticket in Hex.
    destruct (tickets s !! t); injection Hex as <- <-; apply Hsame, same_chain_refl.
  - destruct (mine fuel now s) as [[s1 [b|]]|] eqn:Hm; simpl in Hex; [| |done].
    + injection Hex as <- <-.
      destruct (mine_Some_block _ _ _ _ _ Hm) as (tx0 & pend0 & nb & k & h & _ & _ & _ & _ & _ & ->).
      exists [b]. split; [done|]. intros b0 Hb0. unfold block_transactions. simpl.
      apply lookup_app_l. by apply wf_block_allocated.
    + injection Hex as <- <-.
      destruct (mine_Some_None _ _ _ _ Hm) as [-> _]. apply Hsame, same_chain_refl.
Qed.

(** X7. The chain is append-only: along any run of calls from a reachable
    state, the chain keeps the blocks it had, unchanged and in place, new
    blocks coming after them, and the list of transactions behind each of
    these blocks stays what it was. *)
Theorem chain_is_append_only cs s s' :
  reachable s →
  run cs s = Some s' →
  ∃ new, chain s' = chain s ++ new ∧
         ∀ b, b ∈ chain s → block_transactions s' b = block_transactions s b.
Proof.
  intros Hr. apply reachable_wf in Hr. revert s Hr.
  induction cs as [|c cs IH]; intros s Hwf; simpl.
  - intros [= <-]. exists []. by rewrite app_nil_r.
  - destruct (exec c s) as [[s1 r]|] eqn:Hex; simpl; [|done]. intros Hrun.
    destruct (exec_extends _ _ _ _ Hwf Hex) as (new1 & Hc1 & Hb1).
    destruct (IH s1 (exec_wf _ _ _ _ Hwf Hex) Hrun) as (new2 & Hc2 & Hb2).
    exists (new1 ++ new2). split.
    + by rewrite Hc2, Hc1, app_assoc.
    + intros b Hb. rewrite Hb2; [by apply Hb1|].
      rewrite Hc1. apply elem_of_app. by left.
Qed.

Lemma exec_blocks_nonempty c s s' r :
  wf s → blocks_nonempty s → exec c s = Some (s', r) → blocks_nonempty s'.
Proof.
  intros Hwf Hne Hex i b Hb.
  destruct (exec_extends _ _ _ _ Hwf Hex) as (new & Hc & Hold).
  rewrite Hc in Hb.
  destruct (decide (S i < length (chain s))) as [Hlt|Hge].
  - rewrite lookup_app_l in Hb by done.
    rewrite Hold by (by eapply list_elem_of_lookup_2). by apply (Hne i).
  - destruct c as [u now o e|now t n|now t|t|fuel now]; simpl in Hex.
    5: { destruct (mine fuel now s) as [[s1 [b1|]]|] eqn:Hm; simpl in Hex; [| |done].
         - injection Hex as <- <-.
           destruct (mine_Some_block _ _ _ _ _ Hm)
             as (tx0 & pend0 & nb & k & h & Hp & Hnb & Hb1 & _ & _ & Hs1).
           rewrite Hs1 in Hc. simpl in Hc. apply app_inv_head in Hc. subst new.
           rewrite lookup_app_r in Hb by lia.
           apply list_lookup_singleton_Some in Hb as [_ <-].
           exists tx0, pend0. rewrite Hs1. unfold block_transactions. simpl.
           destruct (new_block_of_fields _ _ _ Hnb) as (_ & Htr & _).
           rewrite Hb1. simpl. rewrite Htr, lookup_app_l; [done|].
           by apply lookup_lt_Some in Hp.
         - injection Hex as <- <-.
           destruct (mine_Some_None _ _ _ _ Hm) as [-> _].
           apply lookup_lt_Some in Hb. rewrite Hc in Hge. lia. }
    all: assert (length (chain s') = length (chain s)) as Hlen.
    + unfold issue_ticket in Hex.
      destruct (add_transaction _ s) as [s1|] eqn:Hadd; simpl in Hex; [|done].
      injection Hex as <- <-. simpl. unfold add_transaction in Hadd.
      destruct (pending s); simpl in Hadd; [|done]. by injection Hadd as <-.
    + apply lookup_lt_Some in Hb. rewrite <- Hc, Hlen in Hb. lia.
    + unfold transfer_ticket in Hex. destruct (tickets s !! t).
      * destruct (negb _); [by injection Hex as <- <-|].
        destruct (add_transaction _ s) as [s1|] eqn:Hadd; simpl in Hex; [|done].
        injection Hex as <- <-. simpl. unfold add_transaction in Hadd.
        destruct (pending s); simpl in Hadd; [|done]. by injection Hadd as <-.
      * by injection Hex as <- <-.
    + apply lookup_lt_Some in Hb. rewrite <- Hc, Hlen in Hb. lia.
    + unfold redeem_ticket in Hex. destruct (tickets s !! t).
      * destruct (negb _); [by injection Hex as <- <-|].
        destruct (add_transaction _ s) as [s1|] eqn:Hadd; simpl in Hex; [|done].
        injection Hex as <- <-. simpl. unfold add_transaction in Hadd.
        destruct (pending s); simpl in Hadd; [|done]. by injection Hadd as <-.
      * by injection Hex as <- <-.
    + apply lookup_lt_Some in Hb. rewrite <- Hc, Hlen in Hb. lia.
    + unfold verify_ticket in Hex. destruct (tickets s !! t); by injection Hex as <- <-.
    + apply lookup_lt_Some in Hb. rewrite <- Hc, Hlen in Hb. lia.
Qed.

Lemma run_blocks_nonempty cs s s' :
  wf s → blocks_nonempty s → run cs s = Some s' → blocks_nonempty s'.
Proof.
  revert s. induction cs as [|c cs IH]; intros s Hwf Hne; simpl.
  - by intros [= <-].
  - destruct (exec c s) as [[s1 r]|] eqn:Hex; simpl; [|done].
    apply IH; [by eapply exec_wf|by eapply exec_blocks_nonempty].
Qed.

(** X8. In every reachable state the chain is not empty, the [index] of
    each block is its position in the chain, and every block after the
    genesis block holds at least one transaction: [mine] never seals an
    empty block. *)
Theorem blocks_are_indexed_and_nonempty s :
  reachable s →
  0 < length (chain s) ∧
  ∀ (i : nat) b, chain s !! i = Some b →
    index b = Z.of_nat i ∧
    (0 < i → ∃ tx txs, block_transactions s b = Some (tx :: txs)).
Proof.
  intros (now & cs & s0 & Hnew & Hrun).
  pose proof (wf_new_blockchain _ _ Hnew) as Hwf0.
  pose proof (run_wf _ _ _ Hwf0 Hrun) as Hwf.
  assert (Hne : blocks_nonempty s).
  { eapply run_blocks_nonempty; [exact Hwf0| |exact Hrun].
    unfold new_blockchain, create_genesis_block in Hnew.
    simpl in Hnew. injection Hnew as <-. intros i b Hb. simpl in Hb. done. }
  split.
  - destruct (wf_chain_nonempty _ Hwf) as [g Hg]. by apply lookup_lt_Some in Hg.
  - intros i b Hb. destruct (wf_hash _ _ _ Hwf i b Hb) as (h & _ & _ & Hi & _).
    split; [done|]. intros Hpos. destruct i as [|i]; [lia|]. by apply (Hne i).
Qed.

(** ** The registry and the log *)

(** What one call does to the registry and to the log of transactions. *)
Lemma exec_registry_log c s s' r :
  exec c s = Some (s', r) →
  (tickets s' = tickets s ∧ submitted s' = submitted s) ∨
  (∃ u now o e,
     c = call_issue_ticket u now o e ∧
     submitted s' = submitted s ++ [mkTicketTransaction "issue" u o (Some e) None now] ∧
     tickets s' = <[u := mkTicket o "valid" e]> (tickets s)) ∨
  (∃ now id n t,
     c = call_transfer_ticket now id n ∧
     tickets s !! id = Some t ∧ status t = "valid" ∧
     submitted s' =
       submitted s ++ [mkTicketTransaction "transfer" id (owner t) None (Some n) now] ∧
     tickets s' = <[id := mkTicket n (status t) (event t)]> (tickets s)) ∨
  (∃ now id t,
     c = call_redeem_ticket now id ∧
     tickets s !! id = Some t ∧ status t = "valid" ∧
     submitted s' =
       submitted s ++ [mkTicketTransaction "redeem" id (owner t) None None now] ∧
     tickets s' = <[id := mkTicket (owner t) "redeemed" (event t)]> (tickets s)).
Proof.
  destruct c as [u now o e|now t n|now t|t|fuel now]; simpl.
  - unfold issue_ticket, add_transaction.
    destruct (pending s); simpl; [|done]. intros [= <- <-].
    right. left. by exists u, now, o, e.
  - unfold transfer_ticket. destruct (tickets s !! t) as [tk|] eqn:Htk.
    + destruct (negb (String.eqb (status tk) "valid")) eqn:Hv.
      * intros [= <- <-]. by left.
      * apply status_test_valid in Hv. unfold add_transaction.
        destruct (pending s); simpl; [|done]. intros [= <- <-].
        right. right. left. by exists now, t, n, tk.
    + intros [= <- <-]. by left.
  - unfold redeem_ticket. destruct (tickets s !! t) as [tk|] eqn:Htk.
    + destruct (negb (String.eqb (status tk) "valid")) eqn:Hv.
      * intros [= <- <-]. by left.
      * apply status_test_valid in Hv. unfold add_transaction.
        destruct (pending s); simpl; [|done]. intros [= <- <-].
        right. right. right. by exists now, t, tk.
    + intros [= <- <-]. by left.
  - unfold verify_ticket. destruct (tickets s !! t); intros [= <- <-]; by left.
  - destruct (mine fuel now s) as [[s1 [b|]]|] eqn:Hm; simpl; [| |done].
    + intros [= <- <-].
      destruct (mine_Some_block _ _ _ _ _ Hm)
        as (? & ? & ? & ? & ? & _ & _ & _ & _ & _ & ->). by left.
    + intros [= <- <-]. destruct (mine_Some_None _ _ _ _ Hm) as [-> _]. by left.
Qed.

Lemma replay_snoc (log : list (TicketTransaction pyfloat Event)) tx :
  replay (log ++ [tx]) = apply_transaction (replay log) tx.
Proof. unfold replay. by rewrite foldl_app. Qed.

Lemma exec_replay c s s' r :
  tickets s = replay (submitted s) →
  exec c s = Some (s', r) →
  tickets s' = replay (submitted s').
Proof.
  intros Hinv Hex.
  destruct (exec_registry_log _ _ _ _ Hex)
    as [[-> ->]|[(u & now & o & e & _ & -> & ->)
       |[(now & id & n & t & _ & Ht & _ & -> & ->)
        |(now & id & t & _ & Ht & _ & -> & ->)]]].
  - done.
  - rewrite replay_snoc, <- Hinv. reflexivity.
  - rewrite replay_snoc, <- Hinv. unfold apply_transaction. simpl. by rewrite Ht.
  - rewrite replay_snoc, <- Hinv. unfold apply_transaction. simpl. by rewrite Ht.
Qed.

(** X9. The registry is a projection of the log: in every reachable state
    it is what replaying the logged transactions in order gives, an issue
    binding the ticket to its owner and event with status ["valid"], a
    transfer setting the owner to the new owner, a redemption setting the
    status to ["redeemed"]; so it can be rebuilt from the transactions of
    the blocks of the chain followed by the pending ones. *)
Theorem registry_is_replay_of_log s :
  reachable s →
  tickets s = replay (submitted s) ∧
  ∃ sealed pend,
    sealed_transactions s = Some sealed ∧ pending s = Some pend ∧
    tickets s = replay (concat sealed ++ pend).
Proof.
  intros (now & cs & s0 & Hnew & Hrun).
  pose proof (run_wf _ _ _ (wf_new_blockchain _ _ Hnew) Hrun) as Hwf.
  assert (Hrep : tickets s = replay (submitted s)).
  { assert (H0 : tickets s0 = replay (submitted s0)).
    { unfold new_blockchain, create_genesis_block in Hnew.
      simpl in Hnew. by injection Hnew as <-. }
    clear Hnew Hwf. revert s0 H0 Hrun.
    induction cs as [|c cs IH]; intros s0 H0; simpl.
    - by intros [= <-].
    - destruct (exec c s0) as [[s1 r]|] eqn:Hex; simpl; [|done].
      apply IH. by eapply exec_replay. }
  split; [done|].
  destruct (wf_log _ _ _ Hwf) as (sealed & pend & Hs & Hp & Hlog).
  exists sealed, pend. by rewrite <- Hlog.
Qed.

Lemma redemptions_snoc id (log : list (TicketTransaction pyfloat Event)) tx :
  redemptions id (log ++ [tx]) =
  redemptions id log + (if is_redeem_of id tx then 1 else 0).
Proof. induction log as [|tx' log IH]; simpl; [lia|]. rewrite IH. lia. Qed.

Lemma exec_redemptions_agree c s s' r :
  redemptions_agree s → uuid4_fresh [c] s → exec c s = Some (s', r) →
  redemptions_agree s'.
Proof.
  intros Hinv [Hfresh _] Hex id. specialize (Hinv id).
  destruct (exec_registry_log _ _ _ _ Hex)
    as [[-> ->]|[(u & now & o & e & -> & -> & ->)
       |[(now & id' & n & t & _ & Ht & Hst & -> & ->)
        |(now & id' & t & _ & Ht & Hst & -> & ->)]]].
  - done.
  - rewrite redemptions_snoc. unfold is_redeem_of. simpl.
    destruct (decide (u = id)) as [->|Hne].
    + rewrite lookup_insert_eq. simpl. rewrite Hfresh in Hinv. lia.
    + rewrite lookup_insert_ne by done. lia.
  - rewrite redemptions_snoc. unfold is_redeem_of. simpl.
    destruct (decide (id' = id)) as [->|Hne].
    + rewrite lookup_insert_eq. simpl. rewrite Ht, Hst in Hinv.
      rewrite Hst. simpl in *. lia.
    + rewrite lookup_insert_ne by done. lia.
  - rewrite redemptions_snoc. unfold is_redeem_of. simpl.
    destruct (decide (id' = id)) as [->|Hne].
    + rewrite lookup_insert_eq. simpl. rewrite Ht, Hst in Hinv.
      rewrite String.eqb_refl. simpl in *. lia.
    + rewrite lookup_insert_ne by done.
      apply String.eqb_neq in Hne. rewrite Hne. lia.
Qed.

(** X10. No ticket is redeemed twice: along every run from a new ledger in
    which [uuid4] draws fresh identifiers, the log holds at most one redeem
    transaction for each ticket, and it holds one exactly when the status
    of the ticket in the registry is ["redeemed"]. *)
Theorem single_redemption now cs s0 s id :
  new_blockchain now = Some s0 →
  uuid4_fresh cs s0 →
  run cs s0 = Some s →
  redemptions id (submitted s) ≤ 1 ∧
  (redemptions id (submitted s) = 1 ↔
   ∃ t, tickets s !! id = Some t ∧ status t = "redeemed").
Proof.
  intros Hnew Hfresh Hrun.
  assert (Hinv : redemptions_agree s).
  { assert (H0 : redemptions_agree s0).
    { unfold new_blockchain, create_genesis_block in Hnew.
      simpl in Hnew. injection Hnew as <-. intros id'. simpl.
      by rewrite lookup_empty. }
    clear Hnew. revert s0 H0 Hfresh Hrun.
    induction cs as [|c cs IH]; intros s0 H0 Hfresh; simpl.
    - by intros [= <-].
    - destruct Hfresh as [Hc Hrest].
      destruct (exec c s0) as [[s1 r]|] eqn:Hex; simpl; [|done].
      apply IH; [|done]. eapply exec_redemptions_agree; [done| |done].
      split; [done|]. simpl. by rewrite Hex. }
  specialize (Hinv id). rewrite Hinv.
  destruct (tickets s !! id) as [t|].
  - destruct (String.eqb (status t) "redeemed") eqn:Hst.
    + apply String.eqb_eq in Hst. split; [lia|]. split; [eauto|done].
    + apply String.eqb_neq in Hst. split; [lia|]. split; [done|].
      intros (t' & [= <-] & Ht'). done.
  - split; [lia|]. split; [done|]. by intros (t' & [=] & _).
Qed.

(** X11. In every reachable state, the status of each registry entry is
    ["valid"] or ["redeemed"]. *)
Theorem status_is_valid_or_redeemed s id t :
  reachable s →
  tickets s !! id = Some t →
  status t = "valid" ∨ status t = "redeemed".
Proof.
  intros (now & cs & s0 & Hnew & Hrun). revert id t.
  assert (H0 : ∀ id t, tickets s0 !! id = Some t →
                       status t = "valid" ∨ status t = "redeemed").
  { unfold new_blockchain, create_genesis_block in Hnew.
    simpl in Hnew. injection Hnew as <-. intros id t. simpl.
    by rewrite lookup_empty. }
  clear Hnew. revert s0 H0 Hrun.
  induction cs as [|c cs IH]; intros s0 H0; simpl.
  - by intros [= <-].
  - destruct (exec c s0) as [[s1 r]|] eqn:Hex; simpl; [|done].
    apply IH. intros id t.
    destruct (exec_registry_log _ _ _ _ Hex)
      as [[-> _]|[(u & now' & o & e & _ & _ & ->)
         |[(now' & id' & n & t' & _ & Ht & Hst & _ & ->)
          |(now' & id' & t' & _ & Ht & Hst & _ & ->)]]].
    + apply H0.
    + destruct (decide (u = id)) as [->|Hne].
      * rewrite lookup_insert_eq. intros [= <-]. by left.
      * rewrite lookup_insert_ne by done. apply H0.
    + destruct (decide (id' = id)) as [->|Hne].
      * rewrite lookup_insert_eq. intros [= <-]. by left.
      * rewrite lookup_insert_ne by done. apply H0.
    + destruct (decide (id' = id)) as [->|Hne].
      * rewrite lookup_insert_eq. intros [= <-]. by right.
      * rewrite lookup_insert_ne by done. apply H0.
Qed.

Lemma exec_keeps_entry c s s' r id t :
  tickets s !! id = Some t →
  exec c s = Some (s', r) →
  ∃ t', tickets s' !! id = Some t' ∧
        (uuid4_fresh [c] s → event t' = event t).
Proof.
  intros Ht Hex.
  destruct (exec_registry_log _ _ _ _ Hex)
    as [[-> _]|[(u & now' & o & e & -> & _ & ->)
       |[(now' & id' & n & t' & _ & Ht' & _ & _ & ->)
        |(now' & id' & t' & _ & Ht' & _ & _ & ->)]]].
  - by exists t.
  - destruct (decide (u = id)) as [->|Hne].
    + rewrite lookup_insert_eq. eexists. split; [done|].
      intros [Hfresh _]. congruence.
    + rewrite lookup_insert_ne by done. by exists t.
  - destruct (decide (id' = id)) as [->|Hne].
    + rewrite lookup_insert_eq. eexists. split; [done|]. simpl. congruence.
    + rewrite lookup_insert_ne by done. by exists t.
  - destruct (decide (id' = id)) as [->|Hne].
    + rewrite lookup_insert_eq. eexists. split; [done|]. simpl. congruence.
    + rewrite lookup_insert_ne by done. by exists t.
Qed.

(** X12. No call removes a ticket from the registry: an identifier that is
    bound stays bound along every run; and when [uuid4] draws fresh
    identifiers, the event of the ticket stays the one it was issued for. *)
Theorem tickets_are_never_removed cs s s' id t :
  tickets s !! id = Some t →
  run cs s = Some s' →
  ∃ t', tickets s' !! id = Some t' ∧
        (uuid4_fresh cs s → event t' = event t).
Proof.
  revert s t. induction cs as [|c cs IH]; intros s t Ht; simpl.
  - intros [= <-]. by exists t.
  - destruct (exec c s) as [[s1 r]|] eqn:Hex; simpl; [|done]. intros Hrun.
    destruct (exec_keeps_entry _ _ _ _ _ _ Ht Hex) as (t1 & Ht1 & He1).
    destruct (IH s1 t1 Ht1 Hrun) as (t' & Ht' & He').
    exists t'. split; [done|]. intros [Hc Hrest].
    rewrite He' by done. apply He1. split; [done|]. simpl. by rewrite Hex.
Qed.

(** X13. Every transaction of the log of a reachable state, hence every
    transaction of a block or of the pending buffer, has one of the three
    shapes that the class builds: an issue with an event and no new owner,
    a transfer with a new owner and no event, a redemption with neither. *)
Theorem transactions_are_well_shaped s :
  reachable s →
  Forall well_shaped (submitted s) ∧
  (∀ pend, pending s = Some pend → Forall well_shaped pend) ∧
  (∀ b txs, b ∈ chain s → block_transactions s b = Some txs →
            Forall well_shaped txs).
Proof.
  intros (now & cs & s0 & Hnew & Hrun).
  pose proof (run_wf _ _ _ (wf_new_blockchain _ _ Hnew) Hrun) as Hwf.
  assert (Hall : Forall well_shaped (submitted s)).
  { assert (H0 : Forall well_shaped (submitted s0)).
    { unfold new_blockchain, create_genesis_block in Hnew.
      simpl in Hnew. injection Hnew as <-. simpl. constructor. }
    clear Hnew Hwf. revert s0 H0 Hrun.
    induction cs as [|c cs IH]; intros s0 H0; simpl.
    - by intros [= <-].
    - destruct (exec c s0) as [[s1 r]|] eqn:Hex; simpl; [|done].
      apply IH.
      destruct (exec_registry_log _ _ _ _ Hex)
        as [[_ ->]|[(u & now' & o & e & _ & -> & _)
           |[(now' & id' & n & t' & _ & _ & _ & -> & _)
            |(now' & id' & t' & _ & _ & _ & -> & _)]]].
      + done.
      + apply Forall_app. split; [done|]. constructor; [|constructor].
        left. simpl. eauto.
      + apply Forall_app. split; [done|]. constructor; [|constructor].
        right. left. simpl. eauto.
      + apply Forall_app. split; [done|]. constructor; [|constructor].
        right. right. simpl. eauto. }
  destruct (wf_log _ _ _ Hwf) as (sealed & pend & Hs & Hp & Hlog).
  rewrite Hlog in Hall. apply Forall_app in Hall as [Hsealed Hpend].
  split_and!.
  - rewrite Hlog. by apply Forall_app.
  - intros pend' Hp'. rewrite Hp in Hp'. by injection Hp' as <-.
  - intros b txs Hb Hbt. apply Forall_forall. intros tx Htx.
    rewrite Forall_forall in Hsealed. apply Hsealed.
    apply list_elem_of_In, in_concat. exists txs. split; [|by apply list_elem_of_In].
    apply list_elem_of_In.
    unfold sealed_transactions in Hs. apply mapM_Some in Hs.
    apply list_elem_of_lookup in Hb as [i Hi].
    destruct (Forall2_lookup_l _ _ _ _ _ Hs Hi) as (txs' & Hi' & Hbt').
    rewrite Hbt in Hbt'. injection Hbt' as <-. by eapply list_elem_of_lookup_2.
Qed.

End Proofs.

(** ** The application part *)

Section ApplicationProofs.
Context {pyfloat : Type}.
Variable json_dumps : BlockDict pyfloat string → string.
Variable sha256_hexdigest : string → string.

Local Abbreviation mine := (mine json_dumps sha256_hexdigest).
Local Abbreviation new_blockchain := (new_blockchain json_dumps sha256_hexdigest).
Local Abbreviation demo_flow := (demo_flow json_dumps sha256_hexdigest).
Local Abbreviation issue_button := (issue_button json_dumps sha256_hexdigest).
Local Abbreviation transfer_button := (transfer_button json_dumps sha256_hexdigest).
Local Abbreviation redeem_button := (redeem_button json_dumps sha256_hexdigest).

Implicit Types (s : TicketBlockchain pyfloat string).

(** [mine] on a pending buffer that holds transactions, when it returns. *)
Lemma mine_of_pending fuel now s s' r tx0 pend0 :
  pending s = Some (tx0 :: pend0) →
  mine fuel now s = Some (s', r) →
  ∃ b, r = Some b ∧
       transactions b = pending_transactions s ∧
       index b = Z.of_nat (length (chain s)) ∧
       s' = mkTicketBlockchain (lists s ++ [[]]) (chain s ++ [b])
              (length (lists s)) (tickets s) (submitted s).
Proof.
  intros Hp Hm. destruct r as [b|].
  - destruct (mine_Some_block _ _ _ _ _ _ _ Hm)
      as (? & ? & nb & k & h & _ & Hnb & -> & _ & _ & ->).
    destruct (new_block_of_fields _ _ _ _ _ Hnb) as (Hi & Ht & _).
    eexists. split_and!; done.
  - destruct (mine_Some_None _ _ _ _ _ _ Hm) as [_ Hp']. congruence.
Qed.

(** A state with an empty pending buffer, after one transaction was added
    and [mine] has returned: one more block, holding that transaction, and
    an empty pending buffer again. *)
Lemma append_then_mine fuel now s tx reg s' r :
  pending s = Some [] →
  mine fuel now
    (mkTicketBlockchain (<[pending_transactions s := [tx]]> (lists s))
       (chain s) (pending_transactions s) reg (submitted s ++ [tx]))
    = Some (s', r) →
  ∃ b, r = Some b ∧ chain s' = chain s ++ [b] ∧
       index b = Z.of_nat (length (chain s)) ∧
       block_transactions s' b = Some [tx] ∧
       pending s' = Some [] ∧ tickets s' = reg ∧
       submitted s' = submitted s ++ [tx].
Proof.
  intros Hp Hm. set (s1 := mkTicketBlockchain _ _ _ _ _) in Hm.
  assert (Hlt : pending_transactions s < length (lists s)).
  { by apply lookup_lt_Some in Hp. }
  assert (Hp1 : pending s1 = Some [tx]).
  { unfold pending. simpl. by rewrite list_lookup_insert_eq. }
  destruct (mine_of_pending _ _ _ _ _ _ _ Hp1 Hm) as (b & -> & Ht & Hi & ->).
  exists b. split_and!; try done.
  - unfold block_transactions. simpl. rewrite Ht. simpl.
    rewrite lookup_app_l by (by rewrite length_insert).
    by rewrite list_lookup_insert_eq.
  - unfold pending. simpl. rewrite lookup_app_r by done.
    by rewrite Nat.sub_diag.
Qed.




(** X17. The startup flow of the page, on a new ledger, when its three
    calls of [mine] return: the chain has four blocks, the genesis block and
    one block for each of the issue to Alice, the transfer from Alice to Bob
    and the redemption by Bob, in this order, each alone in its block; the
    pending buffer is empty, and the registry holds the one ticket, owned by
    Bob, redeemed, for "Rock Concert". *)
Theorem demo_flow_result fuel uuid4 t0 t1 t2 t3 t4 t5 t6 s0 s :
  new_blockchain t0 = Some s0 →
  demo_flow fuel uuid4 t1 t2 t3 t4 t5 t6 s0 = Some s →
  length (chain s) = 4 ∧
  sealed_transactions s =
    Some [[];
          [mkTicketTransaction "issue" uuid4 "Alice" (Some "Rock Concert") None t1];
          [mkTicketTransaction "transfer" uuid4 "Alice" None (Some "Bob") t3];
          [mkTicketTransaction "redeem" uuid4 "Bob" None None t5]] ∧
  pending s = Some [] ∧
  tickets s = {[ uuid4 := mkTicket "Bob" "redeemed" "Rock Concert" ]}.
Proof.
  intros Hnew. unfold new_blockchain, create_genesis_block in Hnew.
  simpl in Hnew. injection Hnew as <-.
  unfold demo_flow, issue_ticket, add_transaction, pending. simpl.
  match goal with |- context [mine fuel t2 ?st] => set (s1 := st) end.
  destruct (mine fuel t2 s1) as [[s2 r2]|] eqn:Hm1; simpl; [|done].
  destruct (mine_of_pending fuel t2 s1 s2 r2 _ [] eq_refl Hm1)
    as (b1 & -> & Hb1 & _ & ->).
  unfold transfer_ticket, add_transaction, pending. simpl.
  rewrite lookup_insert_eq. simpl.
  match goal with |- context [mine fuel t4 ?st] => set (s3 := st) end.
  destruct (mine fuel t4 s3) as [[s4 r4]|] eqn:Hm2; simpl; [|done].
  destruct (mine_of_pending fuel t4 s3 s4 r4 _ [] eq_refl Hm2)
    as (b2 & -> & Hb2 & _ & ->).
  unfold redeem_ticket, add_transaction, pending. simpl.
  rewrite lookup_insert_eq. simpl.
  match goal with |- context [mine fuel t6 ?st] => set (s5 := st) end.
  destruct (mine fuel t6 s5) as [[s6 r6]|] eqn:Hm3; simpl; [|done].
  destruct (mine_of_pending fuel t6 s5 s6 r6 _ [] eq_refl Hm3)
    as (b3 & -> & Hb3 & _ & ->).
  intros [= <-]. simpl in Hb1, Hb2, Hb3. split_and!.
  - done.
  - unfold sealed_transactions, block_transactions. simpl.
    by rewrite Hb1, Hb2, Hb3.
  - done.
  - simpl. rewrite !insert_insert_eq. reflexivity.
Qed.

End ApplicationProofs.

(** ** The first script *)

Section FirstScript.
Context {pyfloat Event : Type}.
Variable json_dumps : V1.BlockDict pyfloat Event → string.
Variable sha256_hexdigest : string → string.

Local Abbreviation mine1 := (V1.mine json_dumps sha256_hexdigest).
Local Abbreviation proof_of_work1 := (V1.proof_of_work json_dumps sha256_hexdigest).
Local Abbreviation proof_of_work_loop1 :=
  (V1.proof_of_work_loop json_dumps sha256_hexdigest).
Local Abbreviation book_tickets := (V1.book_tickets json_dumps sha256_hexdigest).

Implicit Types (s : V1.TicketBlockchain pyfloat Event).

Lemma v1_add_transaction_Some tx s pend :
  V1.pending s = Some pend →
  V1.add_transaction tx s =
    Some (V1.mkTicketBlockchain
            (<[V1.pending_transactions s := pend ++ [tx]]> (V1.lists s))
            (V1.chain s) (V1.pending_transactions s) (V1.tickets s)).
Proof. intros Hp. unfold V1.add_transaction. by rewrite Hp. Qed.

(** The search changes the nonce of the block only. *)
Lemma v1_proof_of_work_loop_fields fuel store b h b' h' :
  proof_of_work_loop1 fuel store b h = Some (b', h') →
  transactions b' = transactions b ∧ index b' = index b.
Proof.
  revert b h. induction fuel as [|fuel IH]; intros b h; simpl.
  - destruct (startswith h _); [|done]. by intros [= <- <-].
  - destruct (startswith h _); [by intros [= <- <-]|].
    destruct (V1.compute_hash _ _ _ _) as [h1|]; simpl; [|done].
    intros Hloop. by destruct (IH _ _ Hloop) as [-> ->].
Qed.

Lemma v1_mine_of_pending fuel now s s' r tx0 pend0 :
  V1.pending s = Some (tx0 :: pend0) →
  mine1 fuel now s = Some (s', r) →
  ∃ b, r = Some b ∧
       transactions b = V1.pending_transactions s ∧
       index b = Z.of_nat (length (V1.chain s)) ∧
       s' = V1.mkTicketBlockchain (V1.lists s ++ [[]]) (V1.chain s ++ [b])
              (length (V1.lists s)) (V1.tickets s).
Proof.
  intros Hp. unfold V1.mine. rewrite Hp. simpl.
  destruct (last (V1.chain s)) as [lb|]; simpl; [|done].
  destruct (V1.compute_hash _ _ _ lb) as [prev|]; simpl; [|done].
  destruct (proof_of_work1 fuel (V1.lists s) _) as [[nb h]|] eqn:Hpow; simpl; [|done].
  intros [= <- <-]. unfold V1.proof_of_work in Hpow.
  destruct (V1.compute_hash _ _ _ _) as [h0|]; simpl in Hpow; [|done].
  destruct (v1_proof_of_work_loop_fields _ _ _ _ _ _ Hpow) as [Ht Hi].
  eexists. split_and!; done.
Qed.

(** The loop of the booking: every round appends an issue transaction and
    binds the identifier it drew. *)
Lemma issue_tickets_spec uuid4 clock (n i : nat) u e ids s pend :
  V1.pending s = Some pend →
  ∃ s',
    V1.issue_tickets uuid4 clock n i u e ids s
      = Some (s', ids ++ (uuid4 <$> seq i n)) ∧
    V1.pending s' =
      Some (pend ++ ((λ j, V1.mkTicketTransaction "issue" (uuid4 j) u (Some e) (clock j))
                       <$> seq i n)) ∧
    V1.chain s' = V1.chain s ∧
    V1.pending_transactions s' = V1.pending_transactions s ∧
    length (V1.lists s') = length (V1.lists s) ∧
    (∀ id, V1.tickets s' !! id =
           if decide (id ∈ uuid4 <$> seq i n) then Some (mkTicket u "valid" e)
           else V1.tickets s !! id).
Proof.
  revert i ids s pend. induction n as [|n IH]; intros i ids s pend Hp; simpl.
  - exists s. rewrite !app_nil_r. split_and!; done.
  - unfold V1.issue_ticket. rewrite (v1_add_transaction_Some _ _ _ Hp). simpl.
    set (tx := V1.mkTicketTransaction "issue" (uuid4 i) u (Some e) (clock i)).
    set (s1 := V1.mkTicketBlockchain _ _ _ _).
    assert (Hp1 : V1.pending s1 = Some (pend ++ [tx])).
    { unfold V1.pending. simpl. rewrite list_lookup_insert_eq; [done|].
      by apply lookup_lt_Some in Hp. }
    destruct (IH (S i) (ids ++ [uuid4 i]) s1 _ Hp1)
      as (s' & Hrun & Hpend & Hchain & Hloc & Hlen & Htk).
    exists s'. split_and!.
    + rewrite Hrun. by rewrite <- app_assoc.
    + rewrite Hpend. by rewrite <- app_assoc.
    + done.
    + done.
    + rewrite Hlen. simpl. by rewrite length_insert.
    + intros id. rewrite Htk. simpl.
      destruct (decide (id = uuid4 i)) as [->|Hne].
      * rewrite (decide_True (P := uuid4 i ∈ uuid4 i :: _)) by left.
        destruct (decide (uuid4 i ∈ uuid4 <$> seq (S i) n)); [done|].
        by rewrite lookup_insert_eq.
      * rewrite lookup_insert_ne by done.
        destruct (decide (id ∈ uuid4 <$> seq (S i) n)) as [Hin|Hnin].
        -- rewrite decide_True; [done|]. by right.
        -- rewrite decide_False; [done|].
           intros [?|?]%elem_of_cons; done.
Qed.

(** X18. The "Book Tickets" button of the first script, on a ledger whose
    pending buffer is empty, for at least one ticket, when its call of
    [mine] returns: the identifiers booked are those drawn by [uuid4], in
    the order of the rounds; the chain has one more block, which holds one
    issue transaction for each round, in that order, all for the same owner
    and event; each booked identifier is bound to a valid ticket of that
    owner for that event, the other tickets are as they were, and the
    pending buffer is empty again. *)
Theorem book_tickets_spec fuel uuid4 clock t_mine (n : nat) u e s s' ids :
  V1.pending s = Some [] →
  0 < n →
  book_tickets fuel uuid4 clock t_mine n u e s = Some (s', ids) →
  ids = uuid4 <$> seq 0 n ∧
  V1.pending s' = Some [] ∧
  (∀ id, V1.tickets s' !! id =
         if decide (id ∈ ids) then Some (mkTicket u "valid" e)
         else V1.tickets s !! id) ∧
  ∃ b,
    V1.chain s' = V1.chain s ++ [b] ∧
    index b = Z.of_nat (length (V1.chain s)) ∧
    V1.block_transactions s' b =
      Some ((λ j, V1.mkTicketTransaction "issue" (uuid4 j) u (Some e) (clock j))
              <$> seq 0 n).
Proof.
  intros Hp Hn. unfold V1.book_tickets.
  destruct (issue_tickets_spec uuid4 clock n 0 u e [] s [] Hp)
    as (s1 & -> & Hp1 & Hc1 & Hl1 & Hlen1 & Htk1). simpl.
  destruct (mine1 fuel t_mine s1) as [[s2 r]|] eqn:Hm; simpl; [|done].
  intros [= <- <-].
  destruct n as [|n]; [lia|]. simpl in Hp1.
  destruct (v1_mine_of_pending _ _ _ _ _ _ _ Hp1 Hm) as (b & -> & Ht & Hi & ->).
  assert (Hlt : V1.pending_transactions s1 < length (V1.lists s1)).
  { by apply lookup_lt_Some in Hp1. }
  split_and!.
  - done.
  - unfold V1.pending. simpl. rewrite lookup_app_r by done.
    by rewrite Nat.sub_diag.
  - intros id. simpl. apply Htk1.
  - exists b. simpl. split_and!.
    + by rewrite Hc1.
    + by rewrite Hi, Hc1.
    + unfold V1.block_transactions. simpl. rewrite Ht.
      rewrite lookup_app_l by done. exact Hp1.
Qed.

(** X19. The two scripts agree on redemption and verification: on ledgers
    of the first and of the second script with the same registry (and
    pending references that are lists), [redeem_ticket] returns the same
    answer and leaves the same registry, and [verify_ticket] returns the
    same entry. *)
Theorem redeem_and_verify_agree now id
    (s1 : V1.TicketBlockchain pyfloat Event) (s2 : TicketBlockchain pyfloat Event) :
  V1.tickets s1 = tickets s2 →
  is_Some (V1.pending s1) →
  is_Some (pending s2) →
  (∃ s1' (s2' : TicketBlockchain pyfloat Event) r,
     V1.redeem_ticket now id s1 = Some (s1', r) ∧
     redeem_ticket now id s2 = Some (s2', r) ∧
     V1.tickets s1' = tickets s2') ∧
  (V1.verify_ticket id s1).2 = (verify_ticket id s2).2.
Proof.
  intros Htk [pend1 Hp1] [pend2 Hp2]. split.
  - unfold V1.redeem_ticket, redeem_ticket. rewrite Htk.
    destruct (tickets s2 !! id) as [t|]; [|by exists s1, s2, false].
    destruct (String.eqb (status t) "valid"); simpl; [|by exists s1, s2, false].
    rewrite (v1_add_transaction_Some _ _ _ Hp1).
    rewrite (add_transaction_Some _ _ _ Hp2). simpl.
    eexists _, _, true. split_and!; [done..|]. simpl. by rewrite Htk.
  - unfold V1.verify_ticket, verify_ticket. simpl. rewrite Htk.
    by destruct (tickets s2 !! id).
Qed.

End FirstScript.

(** ** The run of [Demo]

    The digests below are those that Python's [hashlib] and [json] give for
    the same blocks. *)

Example sha256_abc :
  SHA256.hexdigest "abc"
  = "ba7816bf8f01cfea414140de5dae2223b00361a396177a9cb410ff61f20015ad".
Proof. vm_compute. reflexivity. Qed.

Example sha256_two_blocks :
  SHA256.hexdigest "abcdbcdecdefdefgefghfghighijhijkijkljklmklmnlmnomnopnopq"
  = "248d6a61d20638b8e5c026930c3e6039a33ce45964ff2167f6ecedd419db06c1".
Proof. vm_compute. reflexivity. Qed.

Example demo_genesis_hash :
  hash <$> chain Demo.fresh !! 0
  = Some (Some "ef4b021fd66966ebd36f4284b9a83b9886c7ec2529992d246c160380e8c04d1e").
Proof. vm_compute. reflexivity. Qed.

Example demo_first_block :
  (λ b, (nonce b, hash b)) <$> chain Demo.final !! 1
  = Some (3%Z, Some "00e2856a3cb4f63af0748b13ad40bd081908135bb4a1ef39e0e5839a65df7249").
Proof. vm_compute. reflexivity. Qed.

Example demo_registry :
  tickets Demo.later !! Demo.uuid = Some (mkTicket "Bob" "redeemed" "Rock Concert") ∧
  tickets Demo.later !! Demo.uuid' = Some (mkTicket "Dave" "valid" "Jazz Night").
Proof. split; vm_compute; reflexivity. Qed.

(** Were [uuid4] to draw the identifier of a redeemed ticket again, the new
    entry would replace the old one: the freshness of the identifiers is
    what the terminal status of a redemption rests on. *)
Example uuid4_collision_overwrites :
  ∃ s r, issue_ticket Demo.uuid "1700006000.5" "Eve" "Rock Concert" Demo.redeemed
         = Some (s, r) ∧
         status <$> tickets s !! Demo.uuid = Some "valid".
Proof. eexists _, _. split; vm_compute; reflexivity. Qed.

(** ** The hypotheses of the theorems, met on the run of [Demo] *)

Lemma demo_after_reachable cs s :
  Demo.after cs = Some s → reachable Json.dumps SHA256.hexdigest s.
Proof.
  unfold Demo.after. intros H.
  destruct (Demo.new_blockchain Demo.boot) as [s0|] eqn:H0; [|done].
  exists Demo.boot, cs, s0. split; [exact H0|exact H].
Qed.

Lemma demo_fresh_reachable : reachable Json.dumps SHA256.hexdigest Demo.fresh.
Proof. apply (demo_after_reachable []). vm_compute. reflexivity. Qed.

Lemma demo_issued_reachable : reachable Json.dumps SHA256.hexdigest Demo.issued.
Proof. apply (demo_after_reachable [Demo.issue]). vm_compute. reflexivity. Qed.

Lemma demo_final_reachable : reachable Json.dumps SHA256.hexdigest Demo.final.
Proof.
  apply (demo_after_reachable
           [Demo.issue; Demo.mine1; Demo.transfer; Demo.mine2; Demo.redeem; Demo.mine3]).
  vm_compute. reflexivity.
Qed.

Lemma hash_chain_linkage_witness :
  reachable Json.dumps SHA256.hexdigest Demo.final ∧
  ∃ b p, chain Demo.final !! 2 = Some b ∧ chain Demo.final !! 1 = Some p ∧
         hash p = Some (previous_hash b).
Proof.
  split; [exact demo_final_reachable|].
  destruct (chain Demo.final !! 2) as [b|] eqn:Hb; [|vm_compute in Hb; discriminate].
  destruct (hash_chain_linkage Json.dumps SHA256.hexdigest Demo.final 1 b
              demo_final_reachable Hb) as (p & Hp & Hh).
  exists b, p. split_and!; done.
Defined.

Lemma sealed_block_hash_validity_witness :
  reachable Json.dumps SHA256.hexdigest Demo.final ∧
  (∀ (i : nat) b, chain Demo.final !! i = Some b →
     ∃ h, hash b = Some h ∧
          compute_hash Json.dumps SHA256.hexdigest (lists Demo.final) b = Some h ∧
          (0 < i → startswith h "00" = true)) ∧
  (∃ g, chain Demo.final !! 0 = Some g ∧ nonce g = 0%Z).
Proof.
  split; [exact demo_final_reachable|].
  destruct (sealed_block_hash_validity Json.dumps SHA256.hexdigest Demo.final
              demo_final_reachable) as [Hall (g & Hg & _ & _ & _ & Hn)].
  split.
  - intros i b Hi. destruct (Hall i b Hi) as (h & Hh & Hc & Hz).
    exists h. split_and!; [done..|]. intros Hpos. by apply Hz.
  - by exists g.
Defined.

Lemma mine_seals_pending_witness :
  reachable Json.dumps SHA256.hexdigest Demo.issued ∧
  new_block_of Json.dumps SHA256.hexdigest "1700001079.25" Demo.issued
    = Some Demo.candidate ∧
  seals Json.dumps SHA256.hexdigest (lists Demo.issued) Demo.candidate 3 = true ∧
  ∃ s' b (k : nat),
    mine Json.dumps SHA256.hexdigest 3 "1700001079.25" Demo.issued
      = Some (s', Some b) ∧
    nonce b = Z.of_nat k ∧ k ≤ 3 ∧
    chain s' = chain Demo.issued ++ [b] ∧
    block_transactions s' b = pending Demo.issued ∧
    pending s' = Some [].
Proof.
  assert (Hc : new_block_of Json.dumps SHA256.hexdigest "1700001079.25" Demo.issued
               = Some Demo.candidate) by (vm_compute; reflexivity).
  assert (Hs : seals Json.dumps SHA256.hexdigest (lists Demo.issued)
                 Demo.candidate (Z.of_nat 3) = true) by (vm_compute; reflexivity).
  split_and!; [exact demo_issued_reachable|exact Hc|exact Hs|].
  destruct (pending Demo.issued) as [pend|] eqn:Hp; [|vm_compute in Hp; discriminate].
  assert (Hne : pend ≠ []).
  { intros ->. vm_compute in Hp. discriminate. }
  destruct (mine_seals_pending Json.dumps SHA256.hexdigest 3 "1700001079.25"
              Demo.issued pend Demo.candidate 3
              demo_issued_reachable Hp Hne Hc Hs (le_n 3))
    as (s' & b & h & lb & k & Hm & _ & Hbt & _ & _ & Hk & Hk3 & _ & _ & _ & _
        & Hch & _ & Hpe & _).
  exists s', b, k. split_and!; done.
Defined.

Lemma transaction_conservation_witness :
  reachable Json.dumps SHA256.hexdigest Demo.final ∧
  ∃ sealed pend,
    sealed_transactions Demo.final = Some sealed ∧
    pending Demo.final = Some pend ∧
    submitted Demo.final = concat sealed ++ pend.
Proof.
  split; [exact demo_final_reachable|].
  destruct (transaction_conservation Json.dumps SHA256.hexdigest Demo.final
              demo_final_reachable) as (sealed & pend & Hs & Hp & Hl & _ & _ & _).
  by exists sealed, pend.
Defined.

Lemma transfer_ticket_spec_witness :
  (∃ pend, pending Demo.issued = Some pend) ∧
  (∃ s', transfer_ticket "1700002000.5" Demo.uuid "Bob" Demo.issued = Some (s', true) ∧
         owner <$> tickets s' !! Demo.uuid = Some "Bob") ∧
  transfer_ticket "1700002000.5" Demo.uuid' "Bob" Demo.issued
    = Some (Demo.issued, false).
Proof.
  destruct (pending Demo.issued) as [pend|] eqn:Hp; [|vm_compute in Hp; discriminate].
  split_and!; [by exists pend| |].
  - destruct (transfer_ticket_spec "1700002000.5" Demo.uuid "Bob" Demo.issued pend Hp)
      as (_ & _ & Hok).
    destruct Hok as (t & s' & _ & _ & Htr & _ & _ & Htk & _).
    { intros [Hnone|(t & Ht & Hst)].
      - vm_compute in Hnone. discriminate.
      - vm_compute in Ht. injection Ht as <-. by apply Hst. }
    exists s'. split; [done|]. rewrite Htk. by rewrite lookup_insert_eq.
  - destruct (transfer_ticket_spec "1700002000.5" Demo.uuid' "Bob" Demo.issued pend Hp)
      as (Hfail & _ & _).
    apply Hfail. left. vm_compute. reflexivity.
Defined.

Lemma redemption_is_terminal_witness :
  redeem_ticket "1700004000.5" Demo.uuid Demo.before_redeem
    = Some (Demo.redeemed, true) ∧
  uuid4_fresh Json.dumps SHA256.hexdigest Demo.afterwards Demo.redeemed ∧
  run Json.dumps SHA256.hexdigest Demo.afterwards Demo.redeemed = Some Demo.later ∧
  (∀ now new_owner,
     transfer_ticket now Demo.uuid new_owner Demo.later = Some (Demo.later, false)) ∧
  (∀ now, redeem_ticket now Demo.uuid Demo.later = Some (Demo.later, false)).
Proof.
  assert (Hred : redeem_ticket "1700004000.5" Demo.uuid Demo.before_redeem
                 = Some (Demo.redeemed, true)) by (vm_compute; reflexivity).
  assert (Hfresh : uuid4_fresh Json.dumps SHA256.hexdigest Demo.afterwards Demo.redeemed).
  { vm_compute. repeat split. }
  assert (Hrun : run Json.dumps SHA256.hexdigest Demo.afterwards Demo.redeemed
                 = Some Demo.later) by (vm_compute; reflexivity).
  destruct (redemption_is_terminal Json.dumps SHA256.hexdigest
              "1700004000.5" Demo.uuid Demo.before_redeem Demo.redeemed
              Demo.afterwards Demo.later Hred Hfresh Hrun) as (_ & Htr & Hre).
  split_and!; done.
Defined.

Lemma mine_empty_is_noop_witness :
  pending Demo.fresh = Some [] ∧
  mine Json.dumps SHA256.hexdigest 3 "1700001079.25" Demo.fresh
    = Some (Demo.fresh, None).
Proof.
  assert (Hp : pending Demo.fresh = Some []) by (vm_compute; reflexivity).
  split; [exact Hp|].
  exact (mine_empty_is_noop Json.dumps SHA256.hexdigest 3 "1700001079.25"
           Demo.fresh Hp).
Defined.

Lemma frame_property_witness :
  reachable Json.dumps SHA256.hexdigest Demo.final ∧
  (∀ now t n, ∃ s' r,
     transfer_ticket now t n Demo.final = Some (s', r) ∧ same_chain Demo.final s') ∧
  (∀ t, same_chain Demo.final (verify_ticket t Demo.final).1).
Proof.
  split; [exact demo_final_reachable|].
  destruct (frame_property Json.dumps SHA256.hexdigest Demo.final
              demo_final_reachable) as (_ & Htr & _ & Hv).
  split; [|exact Hv].
  intros now t n. destruct (Htr now t n) as (s' & r & H1 & H2 & _).
  by exists s', r.
Defined.

(** ** The hypotheses of the further properties, met on the run of [Demo] *)

Lemma demo_new_blockchain :
  new_blockchain Json.dumps SHA256.hexdigest Demo.boot = Some Demo.fresh.
Proof. vm_compute. reflexivity. Qed.

Lemma demo_run_to_final :
  run Json.dumps SHA256.hexdigest
    [Demo.issue; Demo.mine1; Demo.transfer; Demo.mine2; Demo.redeem; Demo.mine3]
    Demo.fresh = Some Demo.final.
Proof. vm_compute. reflexivity. Qed.

Lemma redeem_ticket_spec_witness :
  (∃ pend, pending Demo.before_redeem = Some pend) ∧
  redeem_ticket "1700004000.5" Demo.uuid Demo.before_redeem
    = Some (Demo.redeemed, true) ∧
  redeem_ticket "1700004000.5" Demo.uuid' Demo.before_redeem
    = Some (Demo.before_redeem, false).
Proof.
  destruct (pending Demo.before_redeem) as [pend|] eqn:Hp;
    [|vm_compute in Hp; discriminate].
  split_and!; [by exists pend| |].
  - vm_compute. reflexivity.
  - destruct (redeem_ticket_spec "1700004000.5" Demo.uuid' Demo.before_redeem pend Hp)
      as (Hfail & _ & _).
    apply Hfail. left. vm_compute. reflexivity.
Defined.

Lemma issue_then_verify_witness :
  pending Demo.fresh = Some [] ∧
  ∃ s', issue_ticket Demo.uuid "1700000001.5" "Alice" "Rock Concert" Demo.fresh
          = Some (s', Demo.uuid) ∧
        verify_ticket Demo.uuid s' = (s', Some (mkTicket "Alice" "valid" "Rock Concert")).
Proof.
  assert (Hp : pending Demo.fresh = Some []) by (vm_compute; reflexivity).
  split; [exact Hp|].
  destruct (issue_then_verify Demo.uuid "1700000001.5" "Alice" "Rock Concert"
              Demo.fresh [] Hp) as (s' & Hi & _ & Hv & _).
  by exists s'.
Defined.

Lemma mine_twice_witness :
  ∃ b,
    mine Json.dumps SHA256.hexdigest 3 "1700001079.25" Demo.issued
      = Some (Demo.sealed1, Some b) ∧
    mine Json.dumps SHA256.hexdigest 3 "1700001080.25" Demo.sealed1
      = Some (Demo.sealed1, None).
Proof.
  destruct (mine Json.dumps SHA256.hexdigest 3 "1700001079.25" Demo.issued)
    as [[s' [b|]]|] eqn:Hm; try (vm_compute in Hm; discriminate).
  assert (s' = Demo.sealed1) as ->.
  { vm_compute in Hm. injection Hm as <- _. reflexivity. }
  exists b. split; [reflexivity|].
  exact (mine_twice Json.dumps SHA256.hexdigest 3 "1700001079.25" Demo.issued
           Demo.sealed1 b 3 "1700001080.25" Hm).
Defined.

Lemma transfer_is_repeatable_witness :
  transfer_ticket "1700002000.5" Demo.uuid "Bob" Demo.issued
    = Some (default Demo.nowhere
              (fst <$> transfer_ticket "1700002000.5" Demo.uuid "Bob" Demo.issued),
            true) ∧
  ∃ s' s'',
    transfer_ticket "1700002000.5" Demo.uuid "Bob" Demo.issued = Some (s', true) ∧
    transfer_ticket "1700002001.5" Demo.uuid "Carol" s' = Some (s'', true) ∧
    owner <$> tickets s'' !! Demo.uuid = Some "Carol".
Proof.
  assert (H1 : transfer_ticket "1700002000.5" Demo.uuid "Bob" Demo.issued
    = Some (default Demo.nowhere
              (fst <$> transfer_ticket "1700002000.5" Demo.uuid "Bob" Demo.issued),
            true)) by (vm_compute; reflexivity).
  split; [exact H1|].
  destruct (transfer_is_repeatable "1700002000.5" Demo.uuid "Bob" Demo.issued _
              "1700002001.5" "Carol" H1)
    as (e & s'' & pend' & _ & _ & H2 & Ht & _).
  eexists _, s''. split_and!; [exact H1|exact H2|]. by rewrite Ht.
Defined.

Lemma chain_is_append_only_witness :
  reachable Json.dumps SHA256.hexdigest Demo.issued ∧
  run Json.dumps SHA256.hexdigest
    [Demo.mine1; Demo.transfer; Demo.mine2; Demo.redeem; Demo.mine3] Demo.issued
    = Some Demo.final ∧
  ∃ new, chain Demo.final = chain Demo.issued ++ new.
Proof.
  assert (Hrun : run Json.dumps SHA256.hexdigest
    [Demo.mine1; Demo.transfer; Demo.mine2; Demo.redeem; Demo.mine3] Demo.issued
    = Some Demo.final) by (vm_compute; reflexivity).
  split_and!; [exact demo_issued_reachable|exact Hrun|].
  destruct (chain_is_append_only Json.dumps SHA256.hexdigest _ Demo.issued Demo.final
              demo_issued_reachable Hrun) as (new & Hc & _).
  by exists new.
Defined.

Lemma blocks_are_indexed_and_nonempty_witness :
  reachable Json.dumps SHA256.hexdigest Demo.final ∧
  0 < length (chain Demo.final) ∧
  ∀ (i : nat) b, chain Demo.final !! i = Some b → index b = Z.of_nat i.
Proof.
  split; [exact demo_final_reachable|].
  destruct (blocks_are_indexed_and_nonempty Json.dumps SHA256.hexdigest Demo.final
              demo_final_reachable) as [Hlen Hall].
  split; [exact Hlen|]. intros i b Hb. by destruct (Hall i b Hb).
Defined.

Lemma registry_is_replay_of_log_witness :
  reachable Json.dumps SHA256.hexdigest Demo.final ∧
  tickets Demo.final = replay (submitted Demo.final).
Proof.
  split; [exact demo_final_reachable|].
  by destruct (registry_is_replay_of_log Json.dumps SHA256.hexdigest Demo.final
                 demo_final_reachable).
Defined.

Lemma demo_fresh_draws :
  uuid4_fresh Json.dumps SHA256.hexdigest
    [Demo.issue; Demo.mine1; Demo.transfer; Demo.mine2; Demo.redeem; Demo.mine3]
    Demo.fresh.
Proof. vm_compute. repeat split. Qed.

Lemma single_redemption_witness :
  new_blockchain Json.dumps SHA256.hexdigest Demo.boot = Some Demo.fresh ∧
  redemptions Demo.uuid (submitted Demo.final) ≤ 1 ∧
  (redemptions Demo.uuid (submitted Demo.final) = 1 ↔
   ∃ t, tickets Demo.final !! Demo.uuid = Some t ∧ status t = "redeemed").
Proof.
  split; [exact demo_new_blockchain|].
  exact (single_redemption Json.dumps SHA256.hexdigest Demo.boot _ Demo.fresh
           Demo.final Demo.uuid demo_new_blockchain demo_fresh_draws
           demo_run_to_final).
Defined.

Lemma status_is_valid_or_redeemed_witness :
  reachable Json.dumps SHA256.hexdigest Demo.final ∧
  tickets Demo.final !! Demo.uuid = Some (mkTicket "Bob" "redeemed" "Rock Concert") ∧
  ("redeemed" = "valid" ∨ "redeemed" = "redeemed").
Proof.
  assert (Ht : tickets Demo.final !! Demo.uuid
               = Some (mkTicket "Bob" "redeemed" "Rock Concert"))
    by (vm_compute; reflexivity).
  split_and!; [exact demo_final_reachable|exact Ht|].
  exact (status_is_valid_or_redeemed Json.dumps SHA256.hexdigest Demo.final
           Demo.uuid _ demo_final_reachable Ht).
Defined.

Lemma tickets_are_never_removed_witness :
  tickets Demo.issued !! Demo.uuid = Some (mkTicket "Alice" "valid" "Rock Concert") ∧
  ∃ t', tickets Demo.final !! Demo.uuid = Some t'.
Proof.
  assert (Ht : tickets Demo.issued !! Demo.uuid
               = Some (mkTicket "Alice" "valid" "Rock Concert"))
    by (vm_compute; reflexivity).
  assert (Hrun : run Json.dumps SHA256.hexdigest
    [Demo.mine1; Demo.transfer; Demo.mine2; Demo.redeem; Demo.mine3] Demo.issued
    = Some Demo.final) by (vm_compute; reflexivity).
  split; [exact Ht|].
  destruct (tickets_are_never_removed Json.dumps SHA256.hexdigest _ Demo.issued
              Demo.final Demo.uuid _ Ht Hrun) as (t' & Ht' & _).
  by exists t'.
Defined.

Lemma transactions_are_well_shaped_witness :
  reachable Json.dumps SHA256.hexdigest Demo.final ∧
  Forall well_shaped (submitted Demo.final).
Proof.
  split; [exact demo_final_reachable|].
  by destruct (transactions_are_well_shaped Json.dumps SHA256.hexdigest Demo.final
                 demo_final_reachable).
Defined.




Lemma demo_flow_result_witness :
  new_blockchain Json.dumps SHA256.hexdigest Demo.boot = Some Demo.fresh ∧
  demo_flow Json.dumps SHA256.hexdigest 3 Demo.uuid "1700000001.5" "1700001079.25"
    "1700002000.5" "1700003020.25" "1700004000.5" "1700005148.25" Demo.fresh
    = Some Demo.final ∧
  length (chain Demo.final) = 4 ∧
  tickets Demo.final = {[ Demo.uuid := mkTicket "Bob" "redeemed" "Rock Concert" ]}.
Proof.
  assert (Hf : demo_flow Json.dumps SHA256.hexdigest 3 Demo.uuid "1700000001.5"
                 "1700001079.25" "1700002000.5" "1700003020.25" "1700004000.5"
                 "1700005148.25" Demo.fresh = Some Demo.final)
    by (vm_compute; reflexivity).
  split_and!; [exact demo_new_blockchain|exact Hf| |].
  - by destruct (demo_flow_result Json.dumps SHA256.hexdigest 3 Demo.uuid Demo.boot
                   _ _ _ _ _ _ Demo.fresh Demo.final demo_new_blockchain Hf).
  - by destruct (demo_flow_result Json.dumps SHA256.hexdigest 3 Demo.uuid Demo.boot
                   _ _ _ _ _ _ Demo.fresh Demo.final demo_new_blockchain Hf)
      as (_ & _ & _ & ?).
Defined.

Lemma book_tickets_spec_witness :
  V1.pending Demo.fresh1 = Some [] ∧
  V1.book_tickets Json.dumps1 SHA256.hexdigest 3 Demo.draw Demo.tick "1700001111.25"
    2 "Alice" "Rock Concert" Demo.fresh1
    = Some (Demo.booked1, [Demo.uuid; Demo.uuid']) ∧
  V1.pending Demo.booked1 = Some [] ∧
  ∃ b, V1.chain Demo.booked1 = V1.chain Demo.fresh1 ++ [b].
Proof.
  assert (Hp : V1.pending Demo.fresh1 = Some []) by (vm_compute; reflexivity).
  assert (Hb : V1.book_tickets Json.dumps1 SHA256.hexdigest 3 Demo.draw Demo.tick
                 "1700001111.25" 2 "Alice" "Rock Concert" Demo.fresh1
               = Some (Demo.booked1, [Demo.uuid; Demo.uuid']))
    by (vm_compute; reflexivity).
  split_and!; [exact Hp|exact Hb| |].
  - by destruct (book_tickets_spec Json.dumps1 SHA256.hexdigest 3 Demo.draw Demo.tick
                   "1700001111.25" 2 "Alice" "Rock Concert" Demo.fresh1 _ _
                   Hp (le_S 1 1 (le_n 1)) Hb) as (_ & ? & _).
  - destruct (book_tickets_spec Json.dumps1 SHA256.hexdigest 3 Demo.draw Demo.tick
                "1700001111.25" 2 "Alice" "Rock Concert" Demo.fresh1 _ _
                Hp (le_S 1 1 (le_n 1)) Hb) as (_ & _ & _ & b & Hc & _).
    by exists b.
Defined.

Lemma redeem_and_verify_agree_witness :
  V1.tickets Demo.issued1 = tickets Demo.issued ∧
  ∃ s1' (s2' : Demo.ledger),
    V1.redeem_ticket "1700004000.5" Demo.uuid Demo.issued1 = Some (s1', true) ∧
    redeem_ticket "1700004000.5" Demo.uuid Demo.issued = Some (s2', true) ∧
    V1.tickets s1' = tickets s2'.
Proof.
  assert (Ht : V1.tickets Demo.issued1 = tickets Demo.issued)
    by (vm_compute; reflexivity).
  split; [exact Ht|].
  destruct (redeem_and_verify_agree "1700004000.5" Demo.uuid Demo.issued1
              Demo.issued Ht)
    as [(s1' & s2' & r & H1 & H2 & H3) _].
  { vm_compute. eauto. }
  { vm_compute. eauto. }
  assert (r = true) as ->.
  { vm_compute in H2. by injection H2 as _ <-. }
  by exists s1', s2'.
Defined.
